(** * Schedule projection engine of the Mission Control dashboard

    A shallow embedding of the cron projection code of [src/App.tsx]
    (the per-job projector [upcomingRunsForJob], the agenda builder
    [buildAgendaItems] / [groupAgendaByDay] and the two memoised views of
    the [App] component), with the properties of the specification proved
    or refuted against it.

    Instants are epoch milliseconds, as in the source, and are modelled
    by [Z].  Array lengths and loop counters are [nat].  The JavaScript
    platform services the code calls (the croner evaluator, [Intl] date
    formatting, [String.prototype.localeCompare], local-time [Date]
    arithmetic) are parameters of the development, bundled in sections. *)

From Stdlib Require Import ZArith Lia Ascii String.
From stdpp Require Import base numbers list strings gmap sorting.

Local Open Scope Z_scope.

(** ** JavaScript idioms used by the source *)

Module JS.

(** [a || b] on an optional string: the left operand when it is defined
    and non-empty, the right one otherwise. *)
Definition or_str (a : option string) (b : string) : string :=
  match a with
  | Some s => if decide (s = "") then b else s
  | None => b
  end.

(** [s || undefined]. *)
Definition or_undefined (s : string) : option string :=
  if decide (s = "") then None else Some s.

(** [Boolean(b)] on an optional boolean. *)
Definition to_bool (b : option bool) : bool := default false b.

(** [arr.slice(0, n)] for [0 <= n]. *)
Definition slice0 {A} (n : nat) (arr : list A) : list A := take n arr.

End JS.

(** ** Data model *)

Record Schedule := {
  sched_kind : option string;
  sched_expr : option string;
  sched_cron : option string;
  sched_tz : option string;
  sched_timezone : option string
}.

Record JobState := {
  st_nextRunAtMs : option Z;
  st_lastRunAtMs : option Z;
  st_lastRunStatus : option string;
  st_lastStatus : option string
}.

Record Payload := {
  payload_thinking : option string
}.

Record CronJob := {
  job_id : option string;
  job_name : option string;
  job_agentId : option string;
  job_enabled : option bool;
  job_thinking : option string;
  job_payload : option Payload;
  job_schedule : option Schedule;
  job_state : option JobState
}.

Record AgendaItem := {
  runAtMs : Z;
  job : CronJob;
  agentId : string;
  enabled : bool;
  status : string;
  scheduleExpr : string;
  scheduleTz : string;
  itemWasCapped : bool
}.

Record AgendaGroup := {
  group_key : string;
  group_heading : string;
  group_items : list AgendaItem
}.

(** The result of [upcomingRunsForJob]. *)
Record Projection := {
  runs : list Z;
  wasCapped : bool
}.

Definition AGENDA_LOOKAHEAD_DAYS : Z := 7.
Definition MAX_RUNS_PER_JOB : nat := 20.
Definition MAX_RUNS_PER_NOISY_JOB : nat := 7.
Definition MAX_ITERATIONS_PER_JOB : nat := 500.
Definition MAX_AGENDA_ITEMS_TOTAL : nat := 250.
Definition WEEK_STARTS_ON : Z := 1.
Definition NOISY_INTERVAL_MS : Z := 2 * 60 * 60 * 1000.
Definition DAY_MS : Z := 24 * 60 * 60 * 1000.

Arguments MAX_RUNS_PER_JOB : simpl never.
Arguments MAX_RUNS_PER_NOISY_JOB : simpl never.
Arguments MAX_ITERATIONS_PER_JOB : simpl never.
Arguments MAX_AGENDA_ITEMS_TOTAL : simpl never.
Arguments NOISY_INTERVAL_MS : simpl never.
Arguments DAY_MS : simpl never.

Definition getCronExpr (schedule : option Schedule) : string :=
  match schedule with
  | None => ""
  | Some s =>
      if decide (sched_kind s = Some "cron")
      then JS.or_str (sched_expr s) (JS.or_str (sched_cron s) "")
      else ""
  end.

Definition getCronTz (schedule : option Schedule) : string :=
  match schedule with
  | None => ""
  | Some s =>
      if decide (sched_kind s = Some "cron")
      then JS.or_str (sched_tz s) (JS.or_str (sched_timezone s) "")
      else ""
  end.

(** ** The cron evaluator (croner) as a capability *)

(** One answer of [cron.nextRun(cursor)]: a date, [null], or an
    exception. *)
Inductive NextRun :=
  | Fire (nextMs : Z)
  | NoNext
  | Raise.

(** A [Cron] object, as far as the projector uses it: [nextRun] is a
    function of the cursor alone. *)
Record Cron := { nextRun : Z → NextRun }.

(** ** The per-job projector *)

Section Projector.

(** [new Cron(expr, {timezone, mode, legacyMode})]; [None] when the
    constructor throws (unparsable expression). *)
Variable newCron : string → option string → option Cron.

(** [dateKey(epochMs, timeZone)]: the [YYYY-MM-DD] calendar date of an
    instant in a zone ([None]: the viewer's local zone), computed by
    [Intl.DateTimeFormat].  It is total here: the projector calls it only
    on instants the evaluator produced, in the zone the evaluator was
    built with. *)
Variable dateKey : Z → option string → string.

(** The collecting [for] loop of [upcomingRunsForJob]; [iters] is the
    number of iterations left, [None] an exception escaping the loop. *)
Fixpoint collectRuns (cron : Cron) (endAtMs : Z) (iters : nat)
    (cursor : Z) (acc : list Z) : option (list Z) :=
  match iters with
  | O => Some acc
  | S iters' =>
      match nextRun cron cursor with
      | Raise => None
      | NoNext => Some acc
      | Fire nextMs =>
          if decide (nextMs > endAtMs) then Some acc
          else
            let acc' := acc ++ [nextMs] in
            if decide (MAX_RUNS_PER_JOB * 6 < length acc')%nat then Some acc'
            else collectRuns cron endAtMs iters' (nextMs + 1000) acc'
      end
  end.

(** [runs.slice(1).map((ms, idx) => ms - runs[idx])] *)
Definition gaps (rs : list Z) : list Z :=
  zip_with (λ ms prev, ms - prev) (drop 1 rs) rs.

(** [Math.min(...xs)]; [None] stands for [Infinity]. *)
Definition math_min (xs : list Z) : option Z :=
  match xs with
  | [] => None
  | x :: xs' => Some (foldl Z.min x xs')
  end.

Definition minGapMs (rs : list Z) : option Z :=
  if decide (2 <= length rs)%nat then math_min (gaps rs) else None.

Definition isNoisy (rs : list Z) : bool :=
  match minGapMs rs with
  | Some g => bool_decide (g < NOISY_INTERVAL_MS)
  | None => false
  end.

(** The second [for] loop: the first run of each day, at most
    [MAX_RUNS_PER_NOISY_JOB] of them. *)
Fixpoint firstRunPerDay (timezone : option string) (rs : list Z)
    (seenDays : gset string) (capped : list Z) : list Z :=
  match rs with
  | [] => capped
  | runAtMs :: rest =>
      let key := dateKey runAtMs timezone in
      if decide (key ∈ seenDays) then firstRunPerDay timezone rest seenDays capped
      else
        let capped' := capped ++ [runAtMs] in
        if decide (MAX_RUNS_PER_NOISY_JOB <= length capped')%nat then capped'
        else firstRunPerDay timezone rest ({[key]} ∪ seenDays) capped'
  end.

(** The part of the [try] block after the collecting loop. *)
Definition capRuns (timezone : string) (rs : list Z) : Projection :=
  if decide (length rs <= MAX_RUNS_PER_JOB)%nat then
    {| runs := rs; wasCapped := false |}
  else if negb (isNoisy rs) then
    {| runs := JS.slice0 MAX_RUNS_PER_JOB rs; wasCapped := true |}
  else
    {| runs := firstRunPerDay (JS.or_undefined timezone) rs ∅ [];
       wasCapped := true |}.

(** The raw list collected inside the [try] block: the constructor call
    followed by the collecting loop.  [None] when either throws. *)
Definition collectedRuns (job : CronJob) (startAtMs endAtMs : Z)
    : option (list Z) :=
  match newCron (getCronExpr (job_schedule job))
                (JS.or_undefined (getCronTz (job_schedule job))) with
  | None => None
  | Some cron => collectRuns cron endAtMs MAX_ITERATIONS_PER_JOB startAtMs []
  end.

Definition upcomingRunsForJob (job : CronJob) (startAtMs endAtMs : Z)
    : Projection :=
  let expr := getCronExpr (job_schedule job) in
  if decide (expr = "") then {| runs := []; wasCapped := false |}
  else
    let timezone := getCronTz (job_schedule job) in
    match collectedRuns job startAtMs endAtMs with
    | Some rs => capRuns timezone rs
    | None => {| runs := []; wasCapped := false |}
    end.

End Projector.

(** ** Sorting as [Array.prototype.sort] does *)

(** [arr.sort(cmp)] is a stable sort: [x] goes before [y] when
    [cmp x y <= 0] and [x] came first.  For a consistent comparator that
    is the result of this insertion sort. *)
Section Sort.

Context {A : Type} (cmp : A → A → Z).

Fixpoint sort_insert (x : A) (l : list A) : list A :=
  match l with
  | [] => [x]
  | y :: l' => if decide (cmp x y <= 0) then x :: l else y :: sort_insert x l'
  end.

Definition js_sort (l : list A) : list A := foldr sort_insert [] l.

End Sort.

(** ** The agenda builder and the two views *)

Record AgendaView := {
  agenda_total : nat;
  agenda_shown : nat;
  agenda_wasGlobalCapped : bool;
  agenda_groups : list AgendaGroup
}.

Record WeekDay := {
  day_key : string;
  day_heading : string;
  day_items : list AgendaItem
}.

Record WeekView := {
  week_total : nat;
  week_shown : nat;
  week_wasGlobalCapped : bool;
  week_days : list WeekDay;
  week_label : string
}.

Section Views.

Variable newCron : string → option string → option Cron.
Variable dateKey : Z → option string → string.

(** [a.localeCompare(b)]: negative, zero or positive. *)
Variable localeCompare : string → string → Z.

(** [toLocaleDateString] with the weekday/month/day and the month/day
    options. *)
Variable formatDayHeading : Z → string.
Variable formatShortDate : Z → string.

(** Local-time [Date] arithmetic on an instant: [setHours(0, 0, 0, 0)],
    [getDay()], and [setDate(getDate() + n)]. *)
Variable setHoursMidnight : Z → Z.
Variable getDay : Z → Z.
Variable addDate : Z → Z → Z.

Definition startOfWeekMs (epochMs : Z) (weekStartsOn : Z) : Z :=
  let d := setHoursMidnight epochMs in
  let day := getDay d in
  let diff := Z.rem (day - weekStartsOn + 7) 7 in
  addDate d (- diff).

(** The body of the [for (const job of jobs)] loop of
    [buildAgendaItems]: the items one job pushes. *)
Definition itemsOfJob (startAtMs endAtMs : Z) (j : CronJob) : list AgendaItem :=
  let expr := getCronExpr (job_schedule j) in
  let tz := getCronTz (job_schedule j) in
  if decide (expr = "") then []
  else
    let r := upcomingRunsForJob newCron dateKey j startAtMs endAtMs in
    (λ ms,
       {| runAtMs := ms;
          job := j;
          agentId := JS.or_str (job_agentId j) "(default)";
          enabled := JS.to_bool (job_enabled j);
          status :=
            JS.or_str (job_state j ≫= st_lastRunStatus)
              (JS.or_str (job_state j ≫= st_lastStatus) "—");
          scheduleExpr := expr;
          scheduleTz := tz;
          itemWasCapped := wasCapped r |}) <$> runs r.

Definition itemName (a : AgendaItem) : string := JS.or_str (job_name (job a)) "".

Definition compareItems (a b : AgendaItem) : Z :=
  if decide (runAtMs a ≠ runAtMs b) then runAtMs a - runAtMs b
  else localeCompare (itemName a) (itemName b).

(** The list before [items.sort]. *)
Definition pushedItems (jobs : list CronJob) (startAtMs endAtMs : Z)
    : list AgendaItem :=
  jobs ≫= itemsOfJob startAtMs endAtMs.

Definition buildAgendaItems (jobs : list CronJob) (startAtMs endAtMs : Z)
    : list AgendaItem :=
  js_sort compareItems (pushedItems jobs startAtMs endAtMs).

(** The [Map] of [groupAgendaByDay], in insertion order: a key, its
    [headingMs] and its items. *)
Fixpoint groupPush (key : string) (item : AgendaItem)
    (groups : list (string * (Z * list AgendaItem)))
    : list (string * (Z * list AgendaItem)) :=
  match groups with
  | [] => [(key, (runAtMs item, [item]))]
  | (k, (headingMs, its)) :: rest =>
      if decide (k = key) then (k, (headingMs, its ++ [item])) :: rest
      else (k, (headingMs, its)) :: groupPush key item rest
  end.

Definition groupAgendaByDay (items : list AgendaItem) (timeZone : option string)
    : list AgendaGroup :=
  let groups :=
    foldl (λ groups item, groupPush (dateKey (runAtMs item) timeZone) item groups)
          [] items in
  js_sort (λ a b, localeCompare (group_key a) (group_key b))
    ((λ '(key, (headingMs, its)),
        {| group_key := key;
           group_heading := formatDayHeading headingMs;
           group_items := its |}) <$> groups).

(** The [agenda] memo of [App]; [nowMs] is [Date.now()]. *)
Definition agenda (filteredJobs : list CronJob) (nowMs : Z) : AgendaView :=
  let startAtMs := nowMs in
  let endAtMs := startAtMs + AGENDA_LOOKAHEAD_DAYS * 24 * 60 * 60 * 1000 in
  let allItems := buildAgendaItems filteredJobs startAtMs endAtMs in
  let total := length allItems in
  let shown := Nat.min total MAX_AGENDA_ITEMS_TOTAL in
  let wasGlobalCapped := bool_decide (shown < total)%nat in
  let items := JS.slice0 shown allItems in
  {| agenda_total := total;
     agenda_shown := shown;
     agenda_wasGlobalCapped := wasGlobalCapped;
     agenda_groups := groupAgendaByDay items None |}.

(** The items the agenda keeps before grouping them. *)
Definition agendaItems (filteredJobs : list CronJob) (nowMs : Z) : list AgendaItem :=
  let allItems :=
    buildAgendaItems filteredJobs nowMs
      (nowMs + AGENDA_LOOKAHEAD_DAYS * 24 * 60 * 60 * 1000) in
  JS.slice0 (Nat.min (length allItems) MAX_AGENDA_ITEMS_TOTAL) allItems.

(** The [byDay] map of the [week] memo. *)
Definition byDayPush (byDay : gmap string (list AgendaItem)) (item : AgendaItem)
    : gmap string (list AgendaItem) :=
  let key := dateKey (runAtMs item) None in
  match byDay !! key with
  | Some list => <[key := list ++ [item]]> byDay
  | None => <[key := [item]]> byDay
  end.

Definition weekItems (filteredJobs : list CronJob) (nowMs : Z) : list AgendaItem :=
  let weekStartMs := startOfWeekMs nowMs WEEK_STARTS_ON in
  let weekEndMs := weekStartMs + 7 * 24 * 60 * 60 * 1000 in
  filter (λ item, runAtMs item >= nowMs)
    (buildAgendaItems filteredJobs weekStartMs weekEndMs).

(** The [week] memo of [App]. *)
Definition week (filteredJobs : list CronJob) (nowMs : Z) : WeekView :=
  let weekStartMs := startOfWeekMs nowMs WEEK_STARTS_ON in
  let allItems := weekItems filteredJobs nowMs in
  let total := length allItems in
  let shown := Nat.min total MAX_AGENDA_ITEMS_TOTAL in
  let wasGlobalCapped := bool_decide (shown < total)%nat in
  let items := JS.slice0 shown allItems in
  let byDay := foldl byDayPush ∅ items in
  let days :=
    (λ idx : nat,
       let dayStartMs := weekStartMs + Z.of_nat idx * 24 * 60 * 60 * 1000 in
       let key := dateKey dayStartMs None in
       let heading := formatDayHeading dayStartMs in
       let list := default [] (byDay !! key) in
       {| day_key := key;
          day_heading := heading;
          day_items := js_sort (λ a b, runAtMs a - runAtMs b) list |})
      <$> seq 0 7 in
  {| week_total := total;
     week_shown := shown;
     week_wasGlobalCapped := wasGlobalCapped;
     week_days := days;
     week_label :=
       formatShortDate weekStartMs +:+ "–"
         +:+ formatShortDate (weekStartMs + 6 * 24 * 60 * 60 * 1000) |}.

End Views.

(** ** A concrete platform, for running the code on examples *)

(** A deterministic stand-in for the platform: a viewer in UTC, schedules
    that fire at the multiples of a period, and a collation that compares
    lower-cased names byte by byte. *)
Module Utc.

Definition digit (n : Z) : ascii := ascii_of_nat (48 + Z.to_nat (n `mod` 10)).

Definition pad2 (n : Z) : string :=
  String (digit (n / 10)) (String (digit n) "").

Definition pad4 (n : Z) : string :=
  String (digit (n / 1000)) (String (digit (n / 100)) (pad2 n)).

(** The proleptic Gregorian date of a day number counted from
    1970-01-01. *)
Definition civil (days : Z) : Z * Z * Z :=
  let z := days + 719468 in
  let era := z / 146097 in
  let doe := z - era * 146097 in
  let yoe := (doe - doe / 1460 + doe / 36524 - doe / 146096) / 365 in
  let doy := doe - (365 * yoe + yoe / 4 - yoe / 100) in
  let mp := (5 * doy + 2) / 153 in
  let d := doy - (153 * mp + 2) / 5 + 1 in
  let m := if decide (mp < 10) then mp + 3 else mp - 9 in
  let y := yoe + era * 400 + (if decide (m <= 2) then 1 else 0) in
  (y, m, d).

(** [dateKey] for a viewer and jobs in UTC: the zone is ignored. *)
Definition dateKey (epochMs : Z) (timeZone : option string) : string :=
  let '(y, m, d) := civil (epochMs / DAY_MS) in
  pad4 y +:+ "-" +:+ pad2 m +:+ "-" +:+ pad2 d.

Definition formatDayHeading (epochMs : Z) : string := dateKey epochMs None.
Definition formatShortDate (epochMs : Z) : string := dateKey epochMs None.

Definition setHoursMidnight (epochMs : Z) : Z := epochMs - epochMs `mod` DAY_MS.
Definition getDay (epochMs : Z) : Z := (epochMs / DAY_MS + 4) `mod` 7.
Definition addDate (epochMs n : Z) : Z := epochMs + n * DAY_MS.

(** A schedule firing at every multiple of [period] milliseconds:
    the next one strictly after the cursor. *)
Definition every (period : Z) : Cron :=
  {| nextRun := λ cursor, Fire ((cursor / period + 1) * period) |}.

(** The same with a phase: 1970-01-05, day 4, was a Monday. *)
Definition every_from (phase period : Z) : Cron :=
  {| nextRun := λ cursor, Fire (((cursor - phase) / period + 1) * period + phase) |}.

(** A schedule with a single occurrence. *)
Definition once (at_ms : Z) : Cron :=
  {| nextRun := λ cursor, if decide (cursor < at_ms) then Fire at_ms else NoNext |}.

(** A schedule whose evaluator answers once and fails on the next call. *)
Definition failing_after (at_ms : Z) : Cron :=
  {| nextRun := λ cursor, if decide (cursor < at_ms) then Fire at_ms else Raise |}.

Definition newCron (expr : string) (tz : option string) : option Cron :=
  if decide (expr = "*/5 * * * *") then Some (every (5 * 60 * 1000))
  else if decide (expr = "*/30 * * * *") then Some (every (30 * 60 * 1000))
  else if decide (expr = "0 */3 * * *") then Some (every (3 * 60 * 60 * 1000))
  else if decide (expr = "0 0 * * *") then Some (every DAY_MS)
  else if decide (expr = "0 0 * * 1") then Some (every_from (4 * DAY_MS) (7 * DAY_MS))
  else None.

Definition codes (s : string) : list Z :=
  (λ c, Z.of_nat (nat_of_ascii c)) <$> list_ascii_of_string s.

Definition lower (n : Z) : Z :=
  if decide (65 <= n <= 90) then n + 32 else n.

Fixpoint lexCompare (a b : list Z) : Z :=
  match a, b with
  | [], [] => 0
  | [], _ :: _ => -1
  | _ :: _, [] => 1
  | x :: a', y :: b' =>
      if decide (x < y) then -1
      else if decide (y < x) then 1
      else lexCompare a' b'
  end.

(** Case-insensitive lexicographic comparison of two names. *)
Definition ciCompare (a b : string) : Z :=
  lexCompare (lower <$> codes a) (lower <$> codes b).

(** The collation: letters first, whatever their case; names that differ
    only in case are told apart, lower case first. *)
Definition localeCompare (a b : string) : Z :=
  let c := ciCompare a b in
  if decide (c ≠ 0) then c else lexCompare (codes b) (codes a).

Definition cronJob (name expr : string) : CronJob :=
  {| job_id := None;
     job_name := Some name;
     job_agentId := None;
     job_enabled := Some true;
     job_thinking := None;
     job_payload := None;
     job_schedule :=
       Some {| sched_kind := Some "cron";
               sched_expr := Some expr;
               sched_cron := None;
               sched_tz := Some "UTC";
               sched_timezone := None |};
     job_state := None |}.

(** The same constructor, except that the evaluator of the 22:30 job
    answers once and throws on the next call. *)
Definition flakyCron (failAt : Z) (expr : string) (tz : option string) : option Cron :=
  if decide (expr = "30 22 * * *") then Some (failing_after failAt)
  else newCron expr tz.

(** A job scheduled by interval rather than by cron expression. *)
Definition intervalJob (name : string) : CronJob :=
  {| job_id := None;
     job_name := Some name;
     job_agentId := None;
     job_enabled := Some true;
     job_thinking := None;
     job_payload := None;
     job_schedule :=
       Some {| sched_kind := Some "every";
               sched_expr := Some "15m";
               sched_cron := None;
               sched_tz := None;
               sched_timezone := None |};
     job_state := None |}.

(** Thirteen jobs that each fire every three hours. *)
Definition thirteenJobs : list CronJob :=
  (λ name, cronJob name "0 */3 * * *")
    <$> ["sync"; "Backup"; "audit"; "Report"; "digest"; "Cleanup"; "index";
         "Mailer"; "metrics"; "Notify"; "rotate"; "Scan"; "backup"].

(** Tuesday 2023-11-14, 22:13:20 UTC. *)
Definition nowMs : Z := 1700000000000.

Definition upcomingRunsForJob := upcomingRunsForJob newCron dateKey.
Definition agenda :=
  agenda newCron dateKey localeCompare formatDayHeading.
Definition week :=
  week newCron dateKey localeCompare formatDayHeading formatShortDate
    setHoursMidnight getDay addDate.

End Utc.

(** ** JavaScript string idioms *)

Module JSString.

(** [s.slice(0, n)] and [s.slice(n)] for [0 <= n]. *)
Fixpoint take (n : nat) (s : string) : string :=
  match n, s with
  | S n', String c rest => String c (take n' rest)
  | _, _ => EmptyString
  end.

Fixpoint drop (n : nat) (s : string) : string :=
  match n, s with
  | S n', String _ rest => drop n' rest
  | _, _ => s
  end.

(** [c.repeat(n)] for a one-character string. *)
Fixpoint repeat (c : ascii) (n : nat) : string :=
  match n with
  | O => EmptyString
  | S n' => String c (repeat c n')
  end.

(** [s.padEnd(width, ' ')]. *)
Definition padEnd (width : nat) (s : string) : string :=
  s +:+ repeat " " (width - String.length s).

(** [s.indexOf(c)] for a one-character string: [-1] when absent. *)
Fixpoint indexOf (c : ascii) (s : string) : Z :=
  match s with
  | EmptyString => -1
  | String d rest =>
      if decide (d = c) then 0
      else let i := indexOf c rest in if decide (i >= 0) then i + 1 else -1
  end.

(** [parts.join(sep)]. *)
Fixpoint join (sep : string) (parts : list string) : string :=
  match parts with
  | [] => EmptyString
  | [x] => x
  | x :: rest => x +:+ sep +:+ join sep rest
  end.

End JSString.

(** ** The job filter of the dashboard *)

Section Filter.

(** [s.trim()], [s.toLowerCase()] and [s.includes(q)]. *)
Variable trim : string → string.
Variable toLowerCase : string → string.
Variable includes : string → string → bool.

(** The predicate of [jobs.filter] in the [filteredJobs] memo, for the
    normalised query [q]. *)
Definition passesFilter (q : string) (enabledOnly : bool) (j : CronJob) : bool :=
  let name := toLowerCase (JS.or_str (job_name j) "") in
  let agentId := toLowerCase (JS.or_str (job_agentId j) "") in
  let passesQuery := bool_decide (q = "") || includes name q || includes agentId q in
  let passesEnabled := negb enabledOnly || JS.to_bool (job_enabled j) in
  passesQuery && passesEnabled.

Definition filteredJobs (jobs : list CronJob) (query : string) (enabledOnly : bool)
    : list CronJob :=
  let q := toLowerCase (trim query) in
  filter (λ j, passesFilter q enabledOnly j = true) jobs.

End Filter.

(** ** The model shown for an agent *)

(** [defaults.model] is either a model name or an object with a
    [primary] field. *)
Inductive DefaultsModel :=
  | ModelName (name : string)
  | ModelObject (primary : option string).

Record Agent := {
  agent_id : option string;
  agent_model : option string;
  agent_primaryModel : option string;
  agent_defaults : option (option DefaultsModel);
  agent_agentDefaults : option (option string)
}.

(** [agent_defaults] is [None] without a [defaults] object and
    [Some None] for one without a [model]; likewise
    [agent_agentDefaults]. *)
Definition pickAgentModel (agent : Agent) : string :=
  JS.or_str (agent_model agent)
    (JS.or_str (agent_primaryModel agent)
       (JS.or_str
          (match agent_defaults agent with
           | Some (Some (ModelName name)) => Some name
           | _ => None
           end)
          (JS.or_str
             (match agent_defaults agent with
              | Some (Some (ModelObject primary)) => Some (default "" primary)
              | _ => Some ""
              end)
             (JS.or_str (agent_agentDefaults agent ≫= id) "—")))).

(** ** The legacy page: escaping *)

Definition dquote : ascii := ascii_of_nat 34.

(** The replacement of one character by [escapeHtml]. *)
Definition entity (c : ascii) : string :=
  if decide (c = "&"%char) then "&amp;"
  else if decide (c = "<"%char) then "&lt;"
  else if decide (c = ">"%char) then "&gt;"
  else if decide (c = dquote) then "&quot;"
  else if decide (c = "'"%char) then "&#39;"
  else String c EmptyString.

Fixpoint escapeChars (s : string) : string :=
  match s with
  | EmptyString => EmptyString
  | String c rest => entity c +:+ escapeChars rest
  end.

(** [String(s ?? '')] with each of the five markup characters replaced
    by its entity. *)
Definition escapeHtml (s : option string) : string := escapeChars (default "" s).

(** The characters HTML gives a meaning to. *)
Definition markup (c : ascii) : Prop :=
  c = "&"%char ∨ c = "<"%char ∨ c = ">"%char ∨ c = dquote ∨ c = "'"%char.

(** ** The verification script: the table printer *)

Definition clipAndPad (value : option string) (width : nat) : string :=
  let text := default "-" value in
  if decide (width < String.length text)%nat then
    if decide (width <= 3)%nat then JSString.take width text
    else JSString.take (width - 3) text +:+ "..."
  else JSString.padEnd width text.

Record Column := {
  col_key : string;
  col_title : string;
  col_max : nat
}.

Definition columns : list Column :=
  [ {| col_key := "name"; col_title := "job name"; col_max := 42 |};
    {| col_key := "agentId"; col_title := "agentId"; col_max := 24 |};
    {| col_key := "model"; col_title := "model"; col_max := 30 |};
    {| col_key := "schedule"; col_title := "schedule"; col_max := 36 |};
    {| col_key := "thinking"; col_title := "thinking"; col_max := 8 |};
    {| col_key := "enabled"; col_title := "enabled"; col_max := 7 |} ].

(** [widths]: an object from column keys to widths.  A later entry for
    the same key would replace an earlier one. *)
Definition tableWidths (rows : list (gmap string string)) : gmap string nat :=
  foldl (λ widths col,
           let maxCell :=
             foldl (λ max row,
                      Nat.max max (String.length (default "-" (row !! col_key col))))
                   (String.length (col_title col)) rows in
           <[col_key col := Nat.min (col_max col) maxCell]> widths)
        ∅ columns.

(** The lines [printTable] logs, in order.  A missing width would make
    [clipAndPad] pad to nothing and [repeat] give the empty string. *)
Definition printTable (rows : list (gmap string string)) : list string :=
  let widths := tableWidths rows in
  let width col := default 0%nat (widths !! col_key col) in
  let header :=
    JSString.join " | " ((λ col, clipAndPad (Some (col_title col)) (width col)) <$> columns) in
  let sep :=
    JSString.join "-+-" ((λ col, JSString.repeat "-" (width col)) <$> columns) in
  header :: sep ::
    ((λ row,
        JSString.join " | "
          ((λ col, clipAndPad (row !! col_key col) (width col)) <$> columns))
       <$> rows).

(** ** The verification script: tolerant JSON parsing *)

(** The outcome of a function that may call [fail]: a value, or the
    message and the details printed before the process exits. *)
Inductive OrFail (A : Type) :=
  | Returned (value : A)
  | Failed (message : string) (details : option string).

Arguments Returned {A} value.
Arguments Failed {A} message details.

Section ParseJson.

Context {J : Type}.

(** [JSON.parse]: a value, or the message of the error thrown. *)
Variable JSON_parse : string → J + string.

(** [s.trim()] and [s.replace(/\s+/g, ' ')]. *)
Variable trim : string → string.
Variable collapseWhitespace : string → string.

Definition parseJsonOrFail (label raw : string) : OrFail J :=
  if decide (raw = "") then Failed (label +:+ " returned empty output.") None
  else
    match JSON_parse raw with
    | inl value => Returned value
    | inr err_message =>
        let trimmed := trim raw in
        let firstBrace := JSString.indexOf "{" trimmed in
        let firstBracket := JSString.indexOf "[" trimmed in
        let start :=
          if decide (firstBrace >= 0 ∧ firstBracket >= 0)
          then Z.min firstBrace firstBracket
          else if decide (firstBrace >= 0) then firstBrace else firstBracket in
        let failure :=
          let preview := JSString.take 220 (collapseWhitespace trimmed) in
          Failed ("Failed to parse JSON from " +:+ label +:+ ": " +:+ err_message)
                 (Some ("Output preview: " +:+ preview)) in
        if decide (start > 0) then
          let candidate := JSString.drop (Z.to_nat start) trimmed in
          match JSON_parse candidate with
          | inl value => Returned value
          | inr _ => failure
          end
        else failure
    end.

End ParseJson.

(** ** Plain-ASCII string primitives, for running the examples *)

Module Plain.

Definition lowerChar (c : ascii) : ascii :=
  let n := nat_of_ascii c in
  if decide (65 <= n <= 90)%nat then ascii_of_nat (n + 32) else c.

Fixpoint toLowerCase (s : string) : string :=
  match s with
  | EmptyString => EmptyString
  | String c rest => String (lowerChar c) (toLowerCase rest)
  end.

Fixpoint trimStart (s : string) : string :=
  match s with
  | String c rest => if decide (c = " "%char) then trimStart rest else s
  | EmptyString => EmptyString
  end.

Fixpoint trimEnd (s : string) : string :=
  match s with
  | EmptyString => EmptyString
  | String c rest =>
      let rest' := trimEnd rest in
      if decide (c = " "%char ∧ rest' = EmptyString) then EmptyString
      else String c rest'
  end.

Definition trim (s : string) : string := trimEnd (trimStart s).

Fixpoint includes (s q : string) : bool :=
  String.prefix q s
  || match s with
     | EmptyString => false
     | String _ rest => includes rest q
     end.

(** A parser that knows one document. *)
Definition JSON_parse (s : string) : list string + string :=
  if decide (s = "[]") then inl [] else inr "Unexpected token".

Definition disabledJob (name expr : string) : CronJob :=
  {| job_id := None;
     job_name := Some name;
     job_agentId := Some "ops";
     job_enabled := Some false;
     job_thinking := None;
     job_payload := None;
     job_schedule :=
       Some {| sched_kind := Some "cron";
               sched_expr := Some expr;
               sched_cron := None;
               sched_tz := Some "UTC";
               sched_timezone := None |};
     job_state := None |}.

End Plain.

(** ** A collation and a zone closer to real platforms *)

(** A collation that ranks punctuation as the platform's root collation
    does on names made of letters, digits, underscores and hyphens: the
    underscore before the hyphen, both before digits and letters, and
    letters whatever their case. *)
Module Cldr.

Definition rank (n : Z) : Z :=
  if decide (n = 95) then 1
  else if decide (n = 45) then 2
  else 3 + Utc.lower n.

Definition localeCompare (a b : string) : Z :=
  Utc.lexCompare (rank <$> Utc.codes a) (rank <$> Utc.codes b).

(** Thirteen jobs that fire every three hours and differ in name. *)
Definition thirteenJobs : list CronJob :=
  (λ name, Utc.cronJob name "0 */3 * * *")
    <$> ["x_1"; "x-1"; "x-2"; "x-3"; "y01"; "y02"; "y03"; "y04"; "y05";
         "y06"; "y07"; "y08"; "y09"].

End Cldr.

(** A viewer in Santiago de Chile in the first week of April 2024: local
    time is UTC-3 until the clock goes back one hour at local midnight
    between Saturday 6 and Sunday 7 April (03:00 UTC), and UTC-4 from
    then on. *)
Module Santiago.

Definition HOUR_MS : Z := 60 * 60 * 1000.

(** 2024-04-07 03:00 UTC. *)
Definition clockBackAt : Z := 1712458800000.

(** The instant as local wall-clock milliseconds. *)
Definition toLocal (epochMs : Z) : Z :=
  if decide (epochMs < clockBackAt) then epochMs - 3 * HOUR_MS
  else epochMs - 4 * HOUR_MS.

(** The instant of a local wall-clock time (the first one when the
    hour is repeated). *)
Definition fromLocal (localMs : Z) : Z :=
  if decide (localMs + 3 * HOUR_MS < clockBackAt) then localMs + 3 * HOUR_MS
  else localMs + 4 * HOUR_MS.

Definition dateKey (epochMs : Z) (timeZone : option string) : string :=
  match timeZone with
  | None => Utc.dateKey (toLocal epochMs) None
  | Some _ => Utc.dateKey epochMs None
  end.

Definition formatDayHeading (epochMs : Z) : string := dateKey epochMs None.
Definition formatShortDate (epochMs : Z) : string := dateKey epochMs None.

Definition setHoursMidnight (epochMs : Z) : Z :=
  fromLocal (toLocal epochMs - toLocal epochMs `mod` DAY_MS).
Definition getDay (epochMs : Z) : Z := Utc.getDay (toLocal epochMs).
Definition addDate (epochMs n : Z) : Z := fromLocal (toLocal epochMs + n * DAY_MS).

(** Wednesday 2024-04-03, 12:00 UTC (09:00 in Santiago). *)
Definition nowMs : Z := 1712145600000.

Definition week :=
  week Utc.newCron dateKey Utc.localeCompare formatDayHeading formatShortDate
    setHoursMidnight getDay addDate.

End Santiago.

(** ** More notions used to state the properties *)

(** What [groupAgendaByDay] keeps of one entry of its map, for the items
    [seen] so far: the items of that day in order, there being at least
    one, and the instant of the first as [headingMs]. *)
Definition group_of (dateKey : Z → option string → string)
    (timeZone : option string) (seen : list AgendaItem)
    (g : string * (Z * list AgendaItem)) : Prop :=
  g.2.2 = filter (λ it, dateKey (runAtMs it) timeZone = g.1) seen
  ∧ ∃ first, head g.2.2 = Some first ∧ g.2.1 = runAtMs first.


(** [cron] enumerates the fire instants [fires]: it answers the first
    fire instant strictly after the cursor, "none" when there is none,
    and never throws. *)
Definition enumerates (fires : Z → Prop) (cron : Cron) : Prop :=
  ∀ cursor,
    match nextRun cron cursor with
    | Fire t => cursor < t ∧ fires t ∧ ∀ u, cursor < u < t → ¬ fires u
    | NoNext => ∀ u, cursor < u → ¬ fires u
    | Raise => False
    end.

(** Two fire instants are more than a second apart. *)
Definition spaced (fires : Z → Prop) : Prop :=
  ∀ t u, fires t → fires u → t < u → t + 1000 < u.

(** The local zone has a fixed offset: midnight is at most a day back,
    days are 24 hours long and weekdays follow each other. *)
Definition fixed_offset_dates (setHoursMidnight getDay : Z → Z)
    (addDate : Z → Z → Z) : Prop :=
  (∀ ms, setHoursMidnight ms <= ms < setHoursMidnight ms + DAY_MS)
  ∧ (∀ ms, 0 <= getDay ms < 7)
  ∧ (∀ ms n, addDate ms n = ms + n * DAY_MS)
  ∧ (∀ ms n, getDay (ms + n * DAY_MS) = (getDay ms + n) `mod` 7).

(** ** Notions used to state the properties *)

(** The evaluator never answers an instant before the cursor it was
    given.  (Croner answers an instant strictly after it.) *)
Definition advances (cron : Cron) : Prop :=
  ∀ cursor nextMs, nextRun cron cursor = Fire nextMs → cursor <= nextMs.

(** Every evaluator the constructor hands out respects [advances]. *)
Definition evaluator_contract (newCron : string → option string → option Cron) : Prop :=
  ∀ expr tz cron, newCron expr tz = Some cron → advances cron.

Definition noRuns : Projection := {| runs := []; wasCapped := false |}.

(** [x] is the first element of [rs] on its day, in the order of
    [rs]. *)
Definition first_of_day (dateKey : Z → option string → string)
    (timezone : option string) (rs : list Z) (x : Z) : Prop :=
  ∃ pre post, rs = pre ++ x :: post
    ∧ Forall (λ y, dateKey y timezone ≠ dateKey x timezone) pre.

(** The evaluator that answers "no further occurrences" wherever [cron]
    fails, and the one that never fires. *)
Definition silenced (cron : Cron) : Cron :=
  {| nextRun := λ cursor,
       match nextRun cron cursor with
       | Raise => NoNext
       | answer => answer
       end |}.

Definition never : Cron := {| nextRun := λ _, NoNext |}.

Definition silencedCron (newCron : string → option string → option Cron)
    (expr : string) (tz : option string) : option Cron :=
  Some (match newCron expr tz with Some cron => silenced cron | None => never end).

(** A job the projector has nothing to evaluate for: no schedule, a
    schedule of another kind than cron, or an empty expression. *)
Definition unprojectable (j : CronJob) : Prop :=
  match job_schedule j with
  | None => True
  | Some s =>
      sched_kind s ≠ Some "cron"
      ∨ JS.or_str (sched_expr s) (JS.or_str (sched_cron s) "") = ""
  end.

(** A collation is usable by [sort] when it compares any two names and
    does so transitively. *)
Definition collation_total (localeCompare : string → string → Z) : Prop :=
  ∀ a b, localeCompare a b <= 0 ∨ localeCompare b a <= 0.

Definition collation_transitive (localeCompare : string → string → Z) : Prop :=
  ∀ a b c, localeCompare a b <= 0 → localeCompare b c <= 0 → localeCompare a c <= 0.

(** The collation orders two names as [nameCompare] does, or finer. *)
Definition collation_refines (localeCompare nameCompare : string → string → Z) : Prop :=
  ∀ a b, localeCompare a b <= 0 → nameCompare a b <= 0.

(** The order of the agenda: by instant, then by name under the
    collation. *)
Definition agendaOrder (localeCompare : string → string → Z)
    (x y : AgendaItem) : Prop :=
  runAtMs x < runAtMs y
  ∨ (runAtMs x = runAtMs y ∧ localeCompare (itemName x) (itemName y) <= 0).

(** * Properties *)

(** Arithmetic goals that mention the policy constants. *)
Ltac bounds :=
  unfold MAX_RUNS_PER_JOB, MAX_RUNS_PER_NOISY_JOB, MAX_ITERATIONS_PER_JOB,
    MAX_AGENDA_ITEMS_TOTAL, NOISY_INTERVAL_MS, DAY_MS, AGENDA_LOOKAHEAD_DAYS in *;
  simpl length in *; lia.

(** ** The collecting loop *)

Section CollectFacts.

Variable cron : Cron.
Variable endAtMs : Z.

(** What the loop appends to its accumulator, whatever the evaluator
    does: the accumulator is only extended, by instants not after
    [endAtMs], and by at most one per iteration. *)
Lemma collectRuns_extends iters cursor acc rs :
  collectRuns cron endAtMs iters cursor acc = Some rs →
  ∃ ext, rs = acc ++ ext ∧ Forall (λ ms, ms <= endAtMs) ext
         ∧ (length ext <= iters)%nat.
Proof.
  revert cursor acc rs.
  induction iters as [|iters IH]; intros cursor acc rs; simpl.
  - intros [= <-]. exists []. rewrite app_nil_r. auto.
  - destruct (nextRun cron cursor) as [nextMs| |]; [|intros [= <-]|done].
    + case_decide as Hend.
      { intros [= <-]. exists []. rewrite app_nil_r.
        split_and!; [done|constructor|simpl; lia]. }
      case_decide as Hcap.
      { intros [= <-]. exists [nextMs].
        split_and!; [done|repeat constructor; lia|simpl; lia]. }
      intros (ext & -> & Hext & Hlen)%IH.
      exists (nextMs :: ext). rewrite <- app_assoc. simpl.
      split_and!; [done|constructor; [lia|done]|lia].
    + exists []. rewrite app_nil_r. split_and!; [done|constructor|simpl; lia].
Qed.


Hypothesis cron_advances : advances cron.

(** With an evaluator that never goes back, what the loop appends is
    at or after the cursor and strictly ascending. *)
Lemma collectRuns_ascending iters cursor acc rs :
  collectRuns cron endAtMs iters cursor acc = Some rs →
  ∃ ext, rs = acc ++ ext ∧ Forall (λ ms, cursor <= ms) ext
         ∧ StronglySorted Z.lt ext.
Proof.
  revert cursor acc rs.
  induction iters as [|iters IH]; intros cursor acc rs; simpl.
  - intros [= <-]. exists []. rewrite app_nil_r. repeat constructor.
  - destruct (nextRun cron cursor) as [nextMs| |] eqn:Hnext;
      [|intros [= <-]|done].
    + apply cron_advances in Hnext.
      case_decide as Hend.
      { intros [= <-]. exists []. rewrite app_nil_r. repeat constructor. }
      case_decide as Hcap.
      { intros [= <-]. exists [nextMs]. repeat constructor. done. }
      intros (ext & -> & Hext & Hsorted)%IH.
      exists (nextMs :: ext). rewrite <- app_assoc. simpl.
      split_and!; [done| |].
      * constructor; [done|]. eapply Forall_impl; [exact Hext|].
        simpl. intros; lia.
      * constructor; [done|]. eapply Forall_impl; [exact Hext|].
        simpl. intros; lia.
    + exists []. rewrite app_nil_r. repeat constructor.
Qed.

End CollectFacts.

(** ** Minimum gap and order *)

Lemma StronglySorted_sublist {A} (R : relation A) (l k : list A) :
  l `sublist_of` k → StronglySorted R k → StronglySorted R l.
Proof.
  induction 1 as [|x l k Hsub IH|x l k Hsub IH]; intros Hk.
  - constructor.
  - apply StronglySorted_inv in Hk as [Hk Hx]. constructor; [by apply IH|].
    apply Forall_forall. intros y Hy.
    rewrite Forall_forall in Hx. apply Hx. by eapply elem_of_sublist.
  - apply StronglySorted_inv in Hk as [Hk _]. by apply IH.
Qed.

Lemma StronglySorted_impl {A} (R R' : relation A) (l : list A) :
  (∀ x y, R x y → R' x y) → StronglySorted R l → StronglySorted R' l.
Proof.
  intros Himpl. induction 1 as [|x l Hl IH Hx]; constructor; [done|].
  eapply Forall_impl; [exact Hx|]. apply Himpl.
Qed.

Lemma foldl_min_spec (xs : list Z) (a : Z) :
  foldl Z.min a xs ∈ a :: xs ∧ Forall (λ x, foldl Z.min a xs <= x) (a :: xs).
Proof.
  revert a. induction xs as [|x xs IH]; intros a; simpl.
  - split; [left|]. repeat constructor. lia.
  - destruct (IH (Z.min a x)) as [Hin Hall].
    apply Forall_cons in Hall as [Hhd Htl]. split.
    + apply elem_of_cons in Hin as [->|Hin].
      * destruct (Z.min_spec a x) as [[_ ->]|[_ ->]]; [left|right; left].
      * by do 2 right.
    + repeat constructor; [lia|lia|done].
Qed.

(** [Math.min] answers an element of its arguments that is below all of
    them. *)
Lemma math_min_spec (xs : list Z) (g : Z) :
  math_min xs = Some g → g ∈ xs ∧ Forall (λ x, g <= x) xs.
Proof.
  destruct xs as [|x xs]; [done|]. intros [= <-]. apply foldl_min_spec.
Qed.

Lemma gaps_cons (x y : Z) (rs : list Z) :
  gaps (x :: y :: rs) = (y - x) :: gaps (y :: rs).
Proof. reflexivity. Qed.

(** Positive gaps between neighbours: the list is strictly ascending. *)
Lemma gaps_positive_sorted (rs : list Z) :
  Forall (λ d, 0 < d) (gaps rs) → StronglySorted Z.lt rs.
Proof.
  intros Hgaps. apply Sorted_StronglySorted; [intros ???; lia|].
  induction rs as [|x [|y rs] IH]; [constructor|repeat constructor|].
  rewrite gaps_cons in Hgaps. apply Forall_cons in Hgaps as [Hxy Hgaps].
  constructor; [by apply IH|]. constructor. lia.
Qed.

Lemma minGapMs_spec (rs : list Z) (g : Z) :
  minGapMs rs = Some g → g ∈ gaps rs ∧ Forall (λ d, g <= d) (gaps rs).
Proof.
  unfold minGapMs. case_decide; [|done]. apply math_min_spec.
Qed.

(** A list of two or more instants has a minimum gap. *)
Lemma minGapMs_is_Some (rs : list Z) :
  (2 <= length rs)%nat → is_Some (minGapMs rs).
Proof.
  intros Hlen. unfold minGapMs. case_decide; [|lia].
  destruct rs as [|x [|y rs]]; simpl in Hlen; [lia|lia|].
  rewrite gaps_cons. by eexists.
Qed.

(** ** One run per day *)

Section FirstRunPerDay.

Variable dateKey : Z → option string → string.
Variable timezone : option string.

Local Abbreviation day ms := (dateKey ms timezone).
Local Abbreviation first_of_day := (first_of_day dateKey timezone).

Lemma first_of_day_cons rs x y :
  day y ≠ day x → first_of_day rs x → first_of_day (y :: rs) x.
Proof.
  intros Hne (pre & post & -> & Hpre).
  exists (y :: pre), post. split; [done|]. by constructor.
Qed.

Lemma firstRunPerDay_spec rs seenDays capped :
  ∃ chosen,
    firstRunPerDay dateKey timezone rs seenDays capped = capped ++ chosen
    ∧ chosen `sublist_of` rs
    ∧ NoDup ((λ ms, day ms) <$> chosen)
    ∧ Forall (λ ms, day ms ∉ seenDays) chosen
    ∧ Forall (first_of_day rs) chosen
    ∧ ((length capped < MAX_RUNS_PER_NOISY_JOB)%nat →
       (length (capped ++ chosen) <= MAX_RUNS_PER_NOISY_JOB)%nat).
Proof.
  revert seenDays capped.
  induction rs as [|x rest IH]; intros seenDays capped; simpl.
  - exists []. rewrite app_nil_r.
    split_and!; [done|done|constructor|constructor|constructor|lia].
  - case_decide as Hseen.
    + destruct (IH seenDays capped)
        as (chosen & Heq & Hsub & Hnodup & Hfresh & Hfirst & Hlen).
      exists chosen. split_and!; try done.
      * by apply sublist_cons.
      * rewrite Forall_forall in Hfresh, Hfirst. apply Forall_forall.
        intros c Hc. apply first_of_day_cons; [|by apply Hfirst].
        intros Heq'. apply (Hfresh c Hc). by rewrite <- Heq'.
    + case_decide as Hfull.
      * exists [x]. split_and!; [done|by apply sublist_skip, sublist_nil_l| | | |].
        -- simpl. apply NoDup_singleton.
        -- by repeat constructor.
        -- repeat constructor. by exists [], rest.
        -- rewrite length_app. simpl. lia.
      * destruct (IH ({[day x]} ∪ seenDays) (capped ++ [x]))
          as (chosen & Heq & Hsub & Hnodup & Hfresh & Hfirst & Hlen).
        exists (x :: chosen). rewrite Heq, <- app_assoc. simpl.
        rewrite Forall_forall in Hfresh, Hfirst.
        split_and!; [done|by apply sublist_skip| | | |].
        -- simpl. apply NoDup_cons. split; [|done].
           intros (c & Hday & Hc)%list_elem_of_fmap.
           apply (Hfresh c Hc). rewrite <- Hday. set_solver.
        -- constructor; [done|]. apply Forall_forall. intros c Hc.
           specialize (Hfresh c Hc). set_solver.
        -- constructor; [by exists [], rest|]. apply Forall_forall.
           intros c Hc. apply first_of_day_cons; [|by apply Hfirst].
           intros Heq'. apply (Hfresh c Hc). rewrite <- Heq'. set_solver.
        -- intros _. rewrite <- app_assoc in Hlen. simpl in Hlen.
           apply Hlen. lia.
Qed.



End FirstRunPerDay.

(** ** The per-job projector *)

Section ProjectorFacts.

Variable newCron : string → option string → option Cron.
Variable dateKey : Z → option string → string.

Local Abbreviation collected := (collectedRuns newCron).
Local Abbreviation project := (upcomingRunsForJob newCron dateKey).
Local Abbreviation cap := (capRuns dateKey).

Lemma capRuns_sublist timezone rs : runs (cap timezone rs) `sublist_of` rs.
Proof.
  unfold capRuns. case_decide; [done|].
  destruct (isNoisy rs); cbn [negb runs]; [|apply sublist_take].
  destruct (firstRunPerDay_spec dateKey (JS.or_undefined timezone) rs ∅ [])
    as (chosen & -> & Hsub & _). done.
Qed.

(** The three outcomes of the capping policy. *)
Lemma capRuns_cases timezone rs :
  ((length rs <= MAX_RUNS_PER_JOB)%nat
     ∧ cap timezone rs = {| runs := rs; wasCapped := false |})
  ∨ ((MAX_RUNS_PER_JOB < length rs)%nat ∧ isNoisy rs = false
     ∧ cap timezone rs
       = {| runs := take MAX_RUNS_PER_JOB rs; wasCapped := true |}
     ∧ length (take MAX_RUNS_PER_JOB rs) = MAX_RUNS_PER_JOB)
  ∨ ((MAX_RUNS_PER_JOB < length rs)%nat ∧ isNoisy rs = true
     ∧ cap timezone rs
       = {| runs := firstRunPerDay dateKey (JS.or_undefined timezone) rs ∅ [];
            wasCapped := true |}
     ∧ (length (firstRunPerDay dateKey (JS.or_undefined timezone) rs ∅ [])
        <= MAX_RUNS_PER_NOISY_JOB)%nat).
Proof.
  unfold capRuns. case_decide as Hlen; [by left|right].
  destruct (isNoisy rs); cbn [negb]; [right|left].
  - split_and!; [lia|done|done|].
    destruct (firstRunPerDay_spec dateKey (JS.or_undefined timezone) rs ∅ [])
      as (chosen & -> & _ & _ & _ & _ & Hbound).
    apply Hbound. bounds.
  - split_and!; [lia|done|done|]. apply length_take_le. lia.
Qed.

Lemma upcomingRunsForJob_sublist j startAtMs endAtMs raw :
  collected j startAtMs endAtMs = Some raw →
  runs (project j startAtMs endAtMs) `sublist_of` raw.
Proof.
  intros Hraw. unfold upcomingRunsForJob.
  case_decide; [apply sublist_nil_l|]. rewrite Hraw. apply capRuns_sublist.
Qed.

(** Whatever the evaluator answers, nothing after [endAtMs] is
    collected. *)
Lemma collectedRuns_until_end j startAtMs endAtMs raw :
  collected j startAtMs endAtMs = Some raw →
  Forall (λ ms, ms <= endAtMs) raw.
Proof.
  unfold collectedRuns. destruct (newCron _ _) as [cron|]; [|done].
  intros (ext & -> & Hext & _)%collectRuns_extends. done.
Qed.


Lemma collectedRuns_ascending j startAtMs endAtMs raw :
  evaluator_contract newCron →
  collected j startAtMs endAtMs = Some raw →
  Forall (λ ms, startAtMs <= ms) raw ∧ StronglySorted Z.lt raw.
Proof.
  intros Hcontract. unfold collectedRuns.
  destruct (newCron _ _) as [cron|] eqn:Hcron; [|done].
  intros (ext & -> & Hext)%collectRuns_ascending; [done|].
  by eapply Hcontract.
Qed.

(** Every projected instant lies in the closed interval from
    [startAtMs] to [endAtMs]. *)
Lemma upcomingRunsForJob_window j startAtMs endAtMs :
  evaluator_contract newCron →
  Forall (λ ms, startAtMs <= ms <= endAtMs)
    (runs (project j startAtMs endAtMs)).
Proof.
  intros Hcontract.
  destruct (collected j startAtMs endAtMs) as [raw|] eqn:Hraw.
  - pose proof (upcomingRunsForJob_sublist _ _ _ _ Hraw) as Hsub.
    pose proof (collectedRuns_until_end _ _ _ _ Hraw) as Hend.
    destruct (collectedRuns_ascending _ _ _ _ Hcontract Hraw) as [Hstart _].
    rewrite Forall_forall in Hend, Hstart. apply Forall_forall.
    intros ms Hms. pose proof (elem_of_sublist _ _ _ Hms Hsub). split; auto.
  - unfold upcomingRunsForJob. case_decide; [constructor|].
    rewrite Hraw. constructor.
Qed.

End ProjectorFacts.

Section ProjectorClaims.

Variable newCron : string → option string → option Cron.
Variable dateKey : Z → option string → string.

Local Abbreviation collected := (collectedRuns newCron).
Local Abbreviation project := (upcomingRunsForJob newCron dateKey).

(** C8.  With an evaluator that never answers an instant before its
    cursor, the instants [upcomingRunsForJob] returns are strictly
    ascending, whether the raw list is returned as it is, truncated to
    the soft cap, or reduced to one run per day. *)
Theorem upcomingRunsForJob_strictly_ascending j startAtMs endAtMs :
  evaluator_contract newCron →
  StronglySorted Z.lt (runs (project j startAtMs endAtMs)).
Proof.
  intros Hcontract.
  destruct (collected j startAtMs endAtMs) as [raw|] eqn:Hraw.
  - eapply StronglySorted_sublist.
    + by apply upcomingRunsForJob_sublist.
    + by eapply collectedRuns_ascending.
  - unfold upcomingRunsForJob. case_decide; [constructor|].
    rewrite Hraw. constructor.
Qed.


(** C4.  A job with more than [MAX_RUNS_PER_JOB] collected runs whose
    minimum gap is two hours or more is truncated to the first
    [MAX_RUNS_PER_JOB] collected instants, which are in ascending order,
    and is flagged as capped. *)
Theorem overflowing_job_truncated j startAtMs endAtMs raw g :
  getCronExpr (job_schedule j) ≠ "" →
  collected j startAtMs endAtMs = Some raw →
  (MAX_RUNS_PER_JOB < length raw)%nat →
  minGapMs raw = Some g →
  NOISY_INTERVAL_MS <= g →
  let r := project j startAtMs endAtMs in
  runs r = take MAX_RUNS_PER_JOB raw
  ∧ length (runs r) = MAX_RUNS_PER_JOB
  ∧ wasCapped r = true
  ∧ StronglySorted Z.lt (runs r).
Proof.
  intros Hexpr Hraw Hlen Hgap Hquiet r.
  assert (Hr : r = {| runs := take MAX_RUNS_PER_JOB raw; wasCapped := true |}).
  { subst r. unfold upcomingRunsForJob. case_decide; [done|].
    rewrite Hraw. unfold capRuns. case_decide; [lia|].
    unfold isNoisy. rewrite Hgap. rewrite bool_decide_eq_false_2; [done|lia]. }
  rewrite Hr. cbn [runs wasCapped].
  split_and!; [done|apply length_take_le; lia|done|].
  eapply StronglySorted_sublist; [apply sublist_take|].
  apply gaps_positive_sorted. apply minGapMs_spec in Hgap as [_ Hall].
  eapply Forall_impl; [exact Hall|]. simpl. intros d Hd. bounds.
Qed.


End ProjectorClaims.

(** ** The concrete platform meets the contracts *)

Lemma every_from_advances (phase period : Z) :
  0 < period → advances (Utc.every_from phase period).
Proof.
  intros Hp cursor nextMs [= <-].
  pose proof (Z.div_mod (cursor - phase) period) as Hdiv.
  pose proof (Z.mod_pos_bound (cursor - phase) period Hp). nia.
Qed.

Lemma every_advances (period : Z) : 0 < period → advances (Utc.every period).
Proof.
  intros Hp cursor nextMs [= <-].
  pose proof (Z.div_mod cursor period) as Hdiv.
  pose proof (Z.mod_pos_bound cursor period Hp). nia.
Qed.

Lemma utc_newCron_contract : evaluator_contract Utc.newCron.
Proof.
  intros expr tz cron. unfold Utc.newCron.
  repeat case_decide; intros [= <-];
    (apply every_advances || apply every_from_advances); bounds.
Qed.

(** C1, at the boundary.  A job that fires every Monday at midnight,
    projected over the week from Monday 2023-11-13 00:00 UTC to Monday
    2023-11-20 00:00 UTC: the one instant returned is the end of the
    window itself. *)
Theorem upcomingRunsForJob_returns_end_instant :
  let weekStartMs := 1699833600000 in
  let weekEndMs := weekStartMs + 7 * 24 * 60 * 60 * 1000 in
  upcomingRunsForJob Utc.newCron Utc.dateKey
    (Utc.cronJob "weekly report" "0 0 * * 1") weekStartMs weekEndMs
  = {| runs := [weekEndMs]; wasCapped := false |}.
Proof. vm_compute. reflexivity. Qed.

Lemma upcomingRunsForJob_strictly_ascending_witness :
  StronglySorted Z.lt
    (runs (upcomingRunsForJob Utc.newCron Utc.dateKey
             (Utc.cronJob "heartbeat" "*/30 * * * *")
             1700000000000 (1700000000000 + 7 * DAY_MS))).
Proof.
  apply (upcomingRunsForJob_strictly_ascending Utc.newCron Utc.dateKey).
  exact utc_newCron_contract.
Defined.


Lemma overflowing_job_truncated_witness :
  let r := upcomingRunsForJob Utc.newCron Utc.dateKey
             (Utc.cronJob "sync" "0 */3 * * *")
             1700000000000 (1700000000000 + 10 * DAY_MS) in
  length (runs r) = MAX_RUNS_PER_JOB
  ∧ wasCapped r = true
  ∧ StronglySorted Z.lt (runs r).
Proof.
  edestruct (overflowing_job_truncated Utc.newCron Utc.dateKey
               (Utc.cronJob "sync" "0 */3 * * *")
               1700000000000 (1700000000000 + 10 * DAY_MS))
    as (_ & Hlen & Hcapped & Hsorted).
  - vm_compute. discriminate.
  - vm_compute. reflexivity.
  - vm_compute. lia.
  - vm_compute. reflexivity.
  - vm_compute. discriminate.
  - split_and!; assumption.
Defined.

(** ** Sorting *)

Section SortFacts.

Context {A : Type} (cmp : A → A → Z).

Local Abbreviation before := (λ x y, cmp x y <= 0).

Lemma sort_insert_Permutation x l : sort_insert cmp x l ≡ₚ x :: l.
Proof.
  induction l as [|y l IH]; simpl; [done|].
  case_decide; [done|]. rewrite IH. apply Permutation_swap.
Qed.

Lemma js_sort_Permutation l : js_sort cmp l ≡ₚ l.
Proof.
  induction l as [|x l IH]; simpl; [done|].
  unfold js_sort in *. simpl. rewrite sort_insert_Permutation. by rewrite IH.
Qed.

Lemma js_sort_length l : length (js_sort cmp l) = length l.
Proof. by rewrite js_sort_Permutation. Qed.

Lemma js_sort_elem_of x l : x ∈ js_sort cmp l ↔ x ∈ l.
Proof. by rewrite js_sort_Permutation. Qed.

Hypothesis cmp_total : ∀ x y, cmp x y <= 0 ∨ cmp y x <= 0.
Hypothesis cmp_trans : ∀ x y z, cmp x y <= 0 → cmp y z <= 0 → cmp x z <= 0.

Lemma sort_insert_sorted x l :
  StronglySorted before l → StronglySorted before (sort_insert cmp x l).
Proof.
  induction l as [|y l IH]; intros Hl; simpl.
  - repeat constructor.
  - apply StronglySorted_inv in Hl as [Hl Hy]. case_decide as Hxy.
    + constructor; [by constructor|]. constructor; [done|].
      eapply Forall_impl; [exact Hy|]. simpl. intros z Hyz. by eapply cmp_trans.
    + constructor; [by apply IH|].
      rewrite sort_insert_Permutation. constructor; [|done].
      destruct (cmp_total x y); [done|lia].
  Qed.

Lemma js_sort_sorted l : StronglySorted before (js_sort cmp l).
Proof.
  induction l as [|x l IH]; [constructor|].
  unfold js_sort in *. simpl. by apply sort_insert_sorted.
Qed.

End SortFacts.

(** ** The agenda builder *)

Section ViewFacts.

Variable newCron : string → option string → option Cron.
Variable dateKey : Z → option string → string.
Variable localeCompare : string → string → Z.
Variable formatDayHeading : Z → string.

Local Abbreviation pushed := (pushedItems newCron dateKey).
Local Abbreviation build := (buildAgendaItems newCron dateKey localeCompare).

Lemma elem_of_itemsOfJob it j startAtMs endAtMs :
  it ∈ itemsOfJob newCron dateKey startAtMs endAtMs j →
  job it = j ∧ getCronExpr (job_schedule j) ≠ ""
  ∧ runAtMs it ∈ runs (upcomingRunsForJob newCron dateKey j startAtMs endAtMs).
Proof.
  unfold itemsOfJob. case_decide as Hexpr; [by intros ?%elem_of_nil|].
  intros (ms & -> & Hms)%list_elem_of_fmap. done.
Qed.

Lemma elem_of_pushedItems it jobs startAtMs endAtMs :
  it ∈ pushed jobs startAtMs endAtMs →
  job it ∈ jobs ∧ getCronExpr (job_schedule (job it)) ≠ ""
  ∧ runAtMs it
      ∈ runs (upcomingRunsForJob newCron dateKey (job it) startAtMs endAtMs).
Proof.
  unfold pushedItems.
  intros (j & (<- & Hexpr & Hrun)%elem_of_itemsOfJob & Hj)%list_elem_of_bind.
  done.
Qed.

Lemma buildAgendaItems_Permutation jobs startAtMs endAtMs :
  build jobs startAtMs endAtMs ≡ₚ pushed jobs startAtMs endAtMs.
Proof. apply js_sort_Permutation. Qed.

(** A job that pushes nothing can be left out of the job list. *)
Lemma pushedItems_skip before j after startAtMs endAtMs :
  itemsOfJob newCron dateKey startAtMs endAtMs j = [] →
  pushed (before ++ j :: after) startAtMs endAtMs
  = pushed (before ++ after) startAtMs endAtMs.
Proof.
  intros Hj. unfold pushedItems. rewrite !bind_app, bind_cons, Hj. done.
Qed.

Lemma compareItems_before x y :
  compareItems localeCompare x y <= 0 ↔ agendaOrder localeCompare x y.
Proof.
  unfold compareItems, agendaOrder. case_decide; [lia|].
  assert (runAtMs x = runAtMs y) by (by destruct (decide (runAtMs x = runAtMs y))).
  split; [right; done|]. intros [?|[_ ?]]; [lia|done].
Qed.

Lemma agendaOrder_total x y :
  collation_total localeCompare →
  agendaOrder localeCompare x y ∨ agendaOrder localeCompare y x.
Proof.
  intros Htotal. unfold agendaOrder.
  destruct (Z.lt_trichotomy (runAtMs x) (runAtMs y)) as [?|[Heq|?]];
    [left; by left| |right; by left].
  destruct (Htotal (itemName x) (itemName y)); [left|right]; right; done.
Qed.

Lemma agendaOrder_trans x y z :
  collation_transitive localeCompare →
  agendaOrder localeCompare x y → agendaOrder localeCompare y z →
  agendaOrder localeCompare x z.
Proof.
  intros Htrans [Hxy|[Hxy Hn1]] [Hyz|[Hyz Hn2]]; unfold agendaOrder;
    [left; lia|left; lia|left; lia|right].
  split; [lia|]. by eapply Htrans.
Qed.

Lemma agendaOrder_mono (nameCompare : string → string → Z) x y :
  collation_refines localeCompare nameCompare →
  agendaOrder localeCompare x y → agendaOrder nameCompare x y.
Proof. intros Hrefines [?|[? ?]]; [by left|right]. split; [done|]. by apply Hrefines. Qed.

Lemma buildAgendaItems_sorted jobs startAtMs endAtMs :
  collation_total localeCompare → collation_transitive localeCompare →
  StronglySorted (agendaOrder localeCompare) (build jobs startAtMs endAtMs).
Proof.
  intros Htotal Htrans. unfold buildAgendaItems.
  eapply StronglySorted_impl; [|apply js_sort_sorted].
  - intros x y. apply compareItems_before.
  - intros x y. rewrite !compareItems_before. by apply agendaOrder_total.
  - intros x y z. rewrite !compareItems_before. by apply agendaOrder_trans.
Qed.

(** Grouping neither loses nor invents items. *)
Lemma groupPush_items key item groups :
  groupPush key item groups ≫= (λ g, g.2.2) ≡ₚ (groups ≫= (λ g, g.2.2)) ++ [item].
Proof.
  induction groups as [|[k [headingMs its]] rest IH]; simpl; [done|].
  case_decide.
  - rewrite !bind_cons. simpl. rewrite <- !app_assoc.
    apply Permutation_app_head, Permutation_app_comm.
  - rewrite !bind_cons, IH. simpl. by rewrite app_assoc.
Qed.

Lemma groupAgendaByDay_items items timeZone :
  groupAgendaByDay dateKey localeCompare formatDayHeading items timeZone
    ≫= group_items ≡ₚ items.
Proof.
  unfold groupAgendaByDay. rewrite js_sort_Permutation, list_fmap_bind.
  assert (Hfold : ∀ groups,
    foldl (λ groups item, groupPush (dateKey (runAtMs item) timeZone) item groups)
      groups items ≫= (λ g, g.2.2)
    ≡ₚ (groups ≫= (λ g, g.2.2)) ++ items).
  { induction items as [|item items IH]; intros groups; simpl.
    - by rewrite app_nil_r.
    - rewrite IH, groupPush_items, <- app_assoc. done. }
  erewrite list_bind_ext; [apply (Hfold [])| |done].
  by intros [k [headingMs its]].
Qed.

End ViewFacts.

(** ** The two views *)

Section ViewClaims.

Variable newCron : string → option string → option Cron.
Variable dateKey : Z → option string → string.
Variable localeCompare : string → string → Z.
Variable formatDayHeading : Z → string.
Variable formatShortDate : Z → string.
Variable setHoursMidnight : Z → Z.
Variable getDay : Z → Z.
Variable addDate : Z → Z → Z.

Local Abbreviation project := (upcomingRunsForJob newCron dateKey).
Local Abbreviation pushed := (pushedItems newCron dateKey).
Local Abbreviation build := (buildAgendaItems newCron dateKey localeCompare).
Local Abbreviation theAgenda :=
  (agenda newCron dateKey localeCompare formatDayHeading).
Local Abbreviation keptItems := (agendaItems newCron dateKey localeCompare).
Local Abbreviation weekStart := (startOfWeekMs setHoursMidnight getDay addDate).
Local Abbreviation futureItems :=
  (weekItems newCron dateKey localeCompare setHoursMidnight getDay addDate).
Local Abbreviation theWeek :=
  (week newCron dateKey localeCompare formatDayHeading formatShortDate
     setHoursMidnight getDay addDate).

Lemma agenda_groups_items jobs nowMs :
  agenda_groups (theAgenda jobs nowMs) ≫= group_items ≡ₚ keptItems jobs nowMs.
Proof. apply groupAgendaByDay_items. Qed.

Lemma byDayPush_lookup (m : gmap string (list AgendaItem)) item key l x :
  byDayPush dateKey m item !! key = Some l → x ∈ l →
  x = item ∨ ∃ l0, m !! key = Some l0 ∧ x ∈ l0.
Proof.
  unfold byDayPush.
  destruct (m !! dateKey (runAtMs item) None) as [l0|] eqn:Hold;
    (destruct (decide (dateKey (runAtMs item) None = key)) as [<-|Hne];
     [rewrite lookup_insert_eq|rewrite lookup_insert_ne by done]).
  - intros [= <-] [Hx|Hx%list_elem_of_singleton]%elem_of_app; eauto.
  - eauto.
  - intros [= <-] Hx%list_elem_of_singleton. eauto.
  - eauto.
Qed.

Lemma foldl_byDayPush_lookup items (m : gmap string (list AgendaItem)) key l x :
  foldl (byDayPush dateKey) m items !! key = Some l → x ∈ l →
  x ∈ items ∨ ∃ l0, m !! key = Some l0 ∧ x ∈ l0.
Proof.
  revert m. induction items as [|item items IH]; intros m; simpl.
  - eauto.
  - intros Hl Hx. destruct (IH _ Hl Hx) as [?|(l0 & Hl0 & Hx0)].
    + left. by right.
    + destruct (byDayPush_lookup _ _ _ _ _ Hl0 Hx0) as [->|?]; [left; left|by right].
Qed.

(** Whatever a day slot of the week shows is one of the items that
    passed the [runAtMs >= nowMs] filter. *)
Lemma week_day_items jobs nowMs d x :
  d ∈ week_days (theWeek jobs nowMs) → x ∈ day_items d →
  x ∈ futureItems jobs nowMs.
Proof.
  unfold week. cbn [week_days].
  intros (idx & -> & _)%list_elem_of_fmap. cbn [day_items].
  rewrite js_sort_elem_of.
  match goal with |- x ∈ default [] (?m !! ?k) → _ =>
    destruct (m !! k) as [l|] eqn:Hl end; simpl; [|by intros ?%elem_of_nil].
  intros Hx. destruct (foldl_byDayPush_lookup _ _ _ _ _ Hl Hx) as [Hin|(l0 & Hl0 & _)].
  - eapply subseteq_take, Hin.
  - by rewrite lookup_empty in Hl0.
Qed.

Lemma weekItems_pushed jobs nowMs x :
  x ∈ futureItems jobs nowMs →
  nowMs <= runAtMs x
  ∧ x ∈ pushed jobs (weekStart nowMs WEEK_STARTS_ON)
          (weekStart nowMs WEEK_STARTS_ON + 7 * 24 * 60 * 60 * 1000).
Proof.
  unfold weekItems. intros [Hnow Hx]%list_elem_of_filter.
  split; [lia|]. by rewrite buildAgendaItems_Permutation in Hx.
Qed.

Lemma unprojectable_no_expr j :
  unprojectable j → getCronExpr (job_schedule j) = "".
Proof.
  unfold unprojectable, getCronExpr. destruct (job_schedule j) as [s|]; [|done].
  intros [Hkind|Hexpr]; case_decide; done.
Qed.

Lemma agenda_group_items jobs nowMs g x :
  g ∈ agenda_groups (theAgenda jobs nowMs) → x ∈ group_items g →
  x ∈ pushed jobs nowMs (nowMs + AGENDA_LOOKAHEAD_DAYS * 24 * 60 * 60 * 1000).
Proof.
  intros Hg Hx.
  assert (Hin : x ∈ agenda_groups (theAgenda jobs nowMs) ≫= group_items)
    by (apply list_elem_of_bind; eauto).
  rewrite agenda_groups_items in Hin. unfold agendaItems in Hin.
  apply (subseteq_take _ _ x) in Hin.
  by rewrite buildAgendaItems_Permutation in Hin.
Qed.

(** C5, as the code has it.  The agenda records as [total] the number
    of items pushed for all jobs, keeps [min total MAX_AGENDA_ITEMS_TOTAL]
    of them, raises the global flag exactly when [total] exceeds the cap,
    and groups exactly the kept items.  The kept items are in the order
    "instant ascending, ties by [localeCompare] of the names", and each
    of them is at or before every dropped item in that order.  The
    collation is the platform's; it has to compare any two names, and
    transitively. *)
Theorem agenda_global_cap jobs nowMs :
  collation_total localeCompare →
  collation_transitive localeCompare →
  let a := theAgenda jobs nowMs in
  let all := pushed jobs nowMs (nowMs + AGENDA_LOOKAHEAD_DAYS * 24 * 60 * 60 * 1000) in
  let kept := keptItems jobs nowMs in
  agenda_total a = length all
  ∧ agenda_shown a = Nat.min (length all) MAX_AGENDA_ITEMS_TOTAL
  ∧ length kept = Nat.min (length all) MAX_AGENDA_ITEMS_TOTAL
  ∧ (agenda_wasGlobalCapped a = true ↔ (MAX_AGENDA_ITEMS_TOTAL < length all)%nat)
  ∧ agenda_groups a ≫= group_items ≡ₚ kept
  ∧ StronglySorted (agendaOrder localeCompare) kept
  ∧ ∃ dropped,
      kept ++ dropped ≡ₚ all
      ∧ Forall (λ x, Forall (agendaOrder localeCompare x) dropped) kept.
Proof.
  intros Htotal Htrans a all kept.
  pose proof (buildAgendaItems_sorted newCron dateKey localeCompare jobs nowMs
    (nowMs + AGENDA_LOOKAHEAD_DAYS * 24 * 60 * 60 * 1000) Htotal Htrans) as Hsorted.
  pose proof (buildAgendaItems_Permutation newCron dateKey localeCompare jobs nowMs
    (nowMs + AGENDA_LOOKAHEAD_DAYS * 24 * 60 * 60 * 1000)) as Hperm.
  assert (Hlen : length (build jobs nowMs
      (nowMs + AGENDA_LOOKAHEAD_DAYS * 24 * 60 * 60 * 1000)) = length all)
    by (by rewrite Hperm).
  subst a kept. unfold agenda, agendaItems.
  cbn [agenda_total agenda_shown agenda_wasGlobalCapped].
  rewrite Hlen. unfold JS.slice0.
  rewrite <- (take_drop (Nat.min (length all) MAX_AGENDA_ITEMS_TOTAL)
    (build jobs nowMs (nowMs + AGENDA_LOOKAHEAD_DAYS * 24 * 60 * 60 * 1000)))
    in Hsorted, Hperm.
  apply StronglySorted_app in Hsorted as (Hcut & Hkept & _).
  split_and!; [done|done| | | |done|].
  - rewrite length_take, Hlen. lia.
  - rewrite bool_decide_eq_true. lia.
  - pose proof (agenda_groups_items jobs nowMs) as Hgroups.
    unfold agenda, agendaItems in Hgroups. cbn [agenda_groups] in Hgroups.
    unfold JS.slice0 in Hgroups. by rewrite Hlen in Hgroups.
  - eexists. split; [exact Hperm|].
    apply Forall_forall. intros x Hx. apply Forall_forall. intros y Hy.
    by apply Hcut.
Qed.

(** C6.  No item shown in a day slot of the week view fires before
    [nowMs], wherever the week window starts. *)
Theorem week_excludes_past_instances jobs nowMs :
  Forall (λ d, Forall (λ it, nowMs <= runAtMs it) (day_items d))
    (week_days (theWeek jobs nowMs)).
Proof.
  apply Forall_forall. intros d Hd. apply Forall_forall. intros x Hx.
  pose proof (week_day_items _ _ _ _ Hd Hx) as Hfuture.
  by apply weekItems_pushed in Hfuture as [Hnow _].
Qed.

(** The week view always has seven day slots: the slot of index [idx]
    is keyed by the local date of the instant [idx] times 24 hours after
    [weekStartMs], for [idx] from 0 to 6 in order; the slots are there
    with no job at all, each with an empty item list.  Whether these are
    seven different days depends on the zone. *)
Theorem week_has_seven_day_slots jobs nowMs :
  let weekStartMs := weekStart nowMs WEEK_STARTS_ON in
  length (week_days (theWeek jobs nowMs)) = 7%nat
  ∧ day_key <$> week_days (theWeek jobs nowMs)
    = (λ idx : nat, dateKey (weekStartMs + Z.of_nat idx * DAY_MS) None) <$> seq 0 7
  ∧ day_heading <$> week_days (theWeek jobs nowMs)
    = (λ idx : nat, formatDayHeading (weekStartMs + Z.of_nat idx * DAY_MS)) <$> seq 0 7
  ∧ day_items <$> week_days (theWeek [] nowMs) = replicate 7 [].
Proof.
  intros weekStartMs. unfold week. cbn [week_days].
  split_and!.
  - by rewrite length_fmap, length_seq.
  - rewrite <- list_fmap_compose. apply list_fmap_ext. intros _ idx _.
    simpl. f_equal. subst weekStartMs. bounds.
  - rewrite <- list_fmap_compose. apply list_fmap_ext. intros _ idx _.
    simpl. f_equal. subst weekStartMs. bounds.
  - reflexivity.
Qed.

(** C9.  A job with no cron expression (no schedule, a non-cron kind, or
    an empty expression) projects to no run, unflagged, and no item of
    the agenda groups or of the week's day slots belongs to it. *)
Theorem unprojectable_job_contributes_nothing j startAtMs endAtMs jobs nowMs :
  unprojectable j →
  project j startAtMs endAtMs = noRuns
  ∧ Forall (λ g, Forall (λ it, job it ≠ j) (group_items g))
      (agenda_groups (theAgenda jobs nowMs))
  ∧ Forall (λ d, Forall (λ it, job it ≠ j) (day_items d))
      (week_days (theWeek jobs nowMs)).
Proof.
  intros Hexpr%unprojectable_no_expr. split_and!.
  - unfold upcomingRunsForJob. by case_decide.
  - apply Forall_forall. intros g Hg. apply Forall_forall. intros x Hx.
    pose proof (agenda_group_items _ _ _ _ Hg Hx) as Hin.
    apply elem_of_pushedItems in Hin as (_ & Hne & _).
    intros Heq. by rewrite Heq in Hne.
  - apply Forall_forall. intros d Hd. apply Forall_forall. intros x Hx.
    pose proof (week_day_items _ _ _ _ Hd Hx) as Hin.
    apply weekItems_pushed in Hin as [_ Hin].
    apply elem_of_pushedItems in Hin as (_ & Hne & _).
    intros Heq. by rewrite Heq in Hne.
Qed.

(** C2, as the code has it.  When the constructor or a [nextRun] call
    throws, [upcomingRunsForJob] returns no run at all, unflagged,
    whatever had been collected before the failure; the caller gets a
    value, and the agenda items built for the other jobs are the ones
    built without the failing job. *)
Theorem failing_evaluator_yields_no_runs j startAtMs endAtMs before after :
  collectedRuns newCron j startAtMs endAtMs = None →
  project j startAtMs endAtMs = noRuns
  ∧ build (before ++ j :: after) startAtMs endAtMs
    = build (before ++ after) startAtMs endAtMs.
Proof.
  intros Hfail.
  assert (Hnone : project j startAtMs endAtMs = noRuns).
  { unfold upcomingRunsForJob. case_decide; [done|]. by rewrite Hfail. }
  split; [done|]. unfold buildAgendaItems. f_equal.
  apply pushedItems_skip. unfold itemsOfJob. case_decide; [done|].
  by rewrite Hnone.
Qed.

End ViewClaims.

(** ** The concrete collation *)

Lemma lexCompare_antisym a b : Utc.lexCompare b a = - Utc.lexCompare a b.
Proof.
  revert b. induction a as [|x a IH]; intros [|y b]; simpl; try done.
  repeat case_decide; try lia. apply IH.
Qed.

Lemma lexCompare_refl a : Utc.lexCompare a a = 0.
Proof. induction a as [|x a IH]; simpl; [done|]. repeat case_decide; lia. Qed.

Lemma lexCompare_eq a b : Utc.lexCompare a b = 0 → a = b.
Proof.
  revert b. induction a as [|x a IH]; intros [|y b]; simpl; try done.
  repeat case_decide; try done. intros ->%IH. f_equal. lia.
Qed.

Lemma lexCompare_trans a b c :
  Utc.lexCompare a b <= 0 → Utc.lexCompare b c <= 0 → Utc.lexCompare a c <= 0.
Proof.
  revert b c. induction a as [|x a IH]; intros [|y b] [|z c]; simpl; try lia.
  repeat case_decide; try lia. apply IH.
Qed.

Lemma utc_localeCompare_refines : collation_refines Utc.localeCompare Utc.ciCompare.
Proof. intros a b. unfold Utc.localeCompare. case_decide; lia. Qed.

Lemma utc_localeCompare_total : collation_total Utc.localeCompare.
Proof.
  intros a b. unfold Utc.localeCompare, Utc.ciCompare.
  pose proof (lexCompare_antisym (Utc.lower <$> Utc.codes a)
                (Utc.lower <$> Utc.codes b)) as Hci.
  pose proof (lexCompare_antisym (Utc.codes a) (Utc.codes b)) as Hraw.
  repeat case_decide; lia.
Qed.

Lemma utc_localeCompare_transitive : collation_transitive Utc.localeCompare.
Proof.
  intros a b c Hab Hbc.
  pose proof (utc_localeCompare_refines _ _ Hab) as Hab'.
  pose proof (utc_localeCompare_refines _ _ Hbc) as Hbc'.
  pose proof (lexCompare_trans _ _ _ Hab' Hbc') as Hac'.
  unfold Utc.localeCompare, Utc.ciCompare in *.
  destruct (decide (Utc.lexCompare (Utc.lower <$> Utc.codes a)
                      (Utc.lower <$> Utc.codes c) ≠ 0)) as [Hne|Heq]; [done|].
  apply dec_stable in Heq. apply lexCompare_eq in Heq.
  rewrite Heq in Hab, Hab'.
  pose proof (lexCompare_antisym (Utc.lower <$> Utc.codes b)
                (Utc.lower <$> Utc.codes c)) as Hanti.
  destruct (decide (Utc.lexCompare (Utc.lower <$> Utc.codes c)
                      (Utc.lower <$> Utc.codes b) ≠ 0)) as [?|_]; [lia|].
  destruct (decide (Utc.lexCompare (Utc.lower <$> Utc.codes b)
                      (Utc.lower <$> Utc.codes c) ≠ 0)) as [?|_]; [lia|].
  by eapply lexCompare_trans.
Qed.

(** ** Examples on the concrete platform *)

(** The Monday-midnight job in the week view of Tuesday
    2023-11-14: its instance at the end of the window is counted, and no
    day slot shows it. *)
Example week_counts_instant_outside_slots :
  let w := Utc.week [Utc.cronJob "weekly report" "0 0 * * 1"] Utc.nowMs in
  week_total w = 1%nat ∧ day_items <$> week_days w = replicate 7 [].
Proof. vm_compute. done. Qed.

(** A job firing every midnight, seen on Tuesday 2023-11-14 at 22:13:20
    UTC: Tuesday's run is past and is not shown, Wednesday to Sunday show
    one run each, and the run of the following Monday is counted without
    being shown. *)
Example week_of_daily_job :
  let w := Utc.week [Utc.cronJob "nightly" "0 0 * * *"] Utc.nowMs in
  week_total w = 6%nat
  ∧ (λ d, length (day_items d)) <$> week_days w = [0; 0; 1; 1; 1; 1; 1]%nat
  ∧ day_key <$> week_days w
    = ["2023-11-13"; "2023-11-14"; "2023-11-15"; "2023-11-16"; "2023-11-17";
       "2023-11-18"; "2023-11-19"].
Proof. vm_compute. done. Qed.

(** C7, where a day of the week has 25 hours.  In Santiago the clock
    goes back at local midnight between Saturday 6 and Sunday 7 April
    2024.  The week view of Wednesday 3 April has seven slots, but the
    seventh repeats Saturday and there is none for Sunday: the nightly
    run of Saturday evening is shown twice, and the run of Sunday evening
    (2024-04-08 00:00 UTC, 20:00 on Sunday in Santiago) is counted in the
    total of five and shown nowhere. *)
Theorem week_repeats_a_day_when_clock_goes_back :
  let w := Santiago.week [Utc.cronJob "nightly" "0 0 * * *"] Santiago.nowMs in
  day_key <$> week_days w
  = ["2024-04-01"; "2024-04-02"; "2024-04-03"; "2024-04-04"; "2024-04-05";
     "2024-04-06"; "2024-04-06"]
  ∧ (λ d, runAtMs <$> day_items d) <$> week_days w
    = [[]; []; [1712188800000]; [1712275200000]; [1712361600000];
       [1712448000000]; [1712448000000]]
  ∧ week_total w = 5%nat
  ∧ Santiago.dateKey 1712534400000 None = "2024-04-07"
  ∧ 1712534400000
    ∈ runs (upcomingRunsForJob Utc.newCron Santiago.dateKey
              (Utc.cronJob "nightly" "0 0 * * *")
              1711940400000 (1711940400000 + 7 * 24 * 60 * 60 * 1000)).
Proof.
  vm_compute. split_and!; try reflexivity.
  do 6 right. left.
Qed.

(** C2, as stated, fails: the evaluator of the 22:30 job answers 22:30
    and throws on the next call.  The projector returns nothing, where an
    evaluator answering "no further occurrences" instead gives the
    instant collected. *)
Lemma failure_discards_collected_runs :
  let j := Utc.cronJob "backup" "30 22 * * *" in
  let startAtMs := Utc.nowMs in
  let endAtMs := Utc.nowMs + 7 * DAY_MS in
  let failing := upcomingRunsForJob (Utc.flakyCron 1700001000000) Utc.dateKey
                   j startAtMs endAtMs in
  let quiet := upcomingRunsForJob (silencedCron (Utc.flakyCron 1700001000000))
                 Utc.dateKey j startAtMs endAtMs in
  failing = noRuns
  ∧ quiet = {| runs := [1700001000000]; wasCapped := false |}
  ∧ failing ≠ quiet.
Proof. vm_compute. split_and!; [done|done|discriminate]. Qed.

Lemma failing_evaluator_yields_no_runs_witness :
  let j := Utc.cronJob "backup" "30 22 * * *" in
  let others := [Utc.cronJob "sync" "0 */3 * * *"] in
  upcomingRunsForJob (Utc.flakyCron 1700001000000) Utc.dateKey j
    Utc.nowMs (Utc.nowMs + 7 * DAY_MS) = noRuns
  ∧ buildAgendaItems (Utc.flakyCron 1700001000000) Utc.dateKey Utc.localeCompare
      (others ++ j :: []) Utc.nowMs (Utc.nowMs + 7 * DAY_MS)
    = buildAgendaItems (Utc.flakyCron 1700001000000) Utc.dateKey Utc.localeCompare
        (others ++ []) Utc.nowMs (Utc.nowMs + 7 * DAY_MS).
Proof.
  apply (failing_evaluator_yields_no_runs (Utc.flakyCron 1700001000000)
           Utc.dateKey Utc.localeCompare).
  vm_compute. reflexivity.
Defined.

Lemma agenda_global_cap_witness :
  let a := Utc.agenda Utc.thirteenJobs Utc.nowMs in
  let kept := agendaItems Utc.newCron Utc.dateKey Utc.localeCompare
                Utc.thirteenJobs Utc.nowMs in
  agenda_total a = 260%nat
  ∧ agenda_shown a = 250%nat
  ∧ agenda_wasGlobalCapped a = true
  ∧ length (agenda_groups a ≫= group_items) = 250%nat
  ∧ StronglySorted (agendaOrder Utc.localeCompare) kept
  ∧ ∃ dropped,
      length dropped = 10%nat
      ∧ Forall (λ x, Forall (agendaOrder Utc.localeCompare x) dropped) kept.
Proof.
  destruct (agenda_global_cap Utc.newCron Utc.dateKey Utc.localeCompare
              Utc.formatDayHeading Utc.thirteenJobs Utc.nowMs
              utc_localeCompare_total utc_localeCompare_transitive)
    as (Htotal & Hshown & Hkept & Hflag & Hgroups & Hsorted & dropped & Hperm & Hcut).
  assert (Hall : length (pushedItems Utc.newCron Utc.dateKey Utc.thirteenJobs
                   Utc.nowMs (Utc.nowMs + AGENDA_LOOKAHEAD_DAYS * 24 * 60 * 60 * 1000))
                 = 260%nat) by (vm_compute; reflexivity).
  rewrite Hall in Htotal, Hshown, Hkept, Hflag.
  split_and!; [exact Htotal|exact Hshown| | |exact Hsorted|].
  - apply Hflag. unfold MAX_AGENDA_ITEMS_TOTAL. lia.
  - unfold Utc.agenda. rewrite Hgroups. exact Hkept.
  - exists dropped. split; [|exact Hcut].
    apply Permutation_length in Hperm. rewrite length_app, Hkept, Hall in Hperm.
    simpl in Hperm. lia.
Defined.

(** C5, as stated, fails.  Thirteen jobs fire every three hours; the
    agenda counts 260 instances and keeps 250.  At the last instant the
    collation puts "x_1" before "x-1", "x-2" and "x-3", so "x_1" is kept
    and "x-3" is dropped, although "x-3" comes first when the names are
    compared case-insensitively character by character. *)
Lemma agenda_cap_follows_the_collation :
  let nowMs := Utc.nowMs in
  let all := buildAgendaItems Utc.newCron Utc.dateKey Cldr.localeCompare
               Cldr.thirteenJobs nowMs
               (nowMs + AGENDA_LOOKAHEAD_DAYS * 24 * 60 * 60 * 1000) in
  let kept := agendaItems Utc.newCron Utc.dateKey Cldr.localeCompare
                Cldr.thirteenJobs nowMs in
  ∃ x y,
    kept !! 247%nat = Some x
    ∧ all !! 250%nat = Some y
    ∧ length kept = 250%nat
    ∧ itemName x = "x_1" ∧ itemName y = "x-3"
    ∧ runAtMs x = runAtMs y
    ∧ Utc.ciCompare (itemName y) (itemName x) < 0
    ∧ ¬ agendaOrder Utc.ciCompare x y.
Proof.
  eexists. eexists.
  split; [vm_compute; reflexivity|]. split; [vm_compute; reflexivity|].
  split_and!; try (vm_compute; reflexivity).
  unfold agendaOrder. cbn [runAtMs]. intros [Hlt|[_ Hname]].
  - lia.
  - vm_compute in Hname. by apply Hname.
Qed.

Lemma unprojectable_job_contributes_nothing_witness :
  let j := Utc.intervalJob "pulse" in
  let jobs := [j; Utc.cronJob "sync" "0 */3 * * *"] in
  upcomingRunsForJob Utc.newCron Utc.dateKey j Utc.nowMs (Utc.nowMs + 7 * DAY_MS)
    = noRuns
  ∧ Forall (λ g, Forall (λ it, job it ≠ j) (group_items g))
      (agenda_groups (Utc.agenda jobs Utc.nowMs))
  ∧ Forall (λ d, Forall (λ it, job it ≠ j) (day_items d))
      (week_days (Utc.week jobs Utc.nowMs)).
Proof.
  apply (unprojectable_job_contributes_nothing Utc.newCron Utc.dateKey
           Utc.localeCompare Utc.formatDayHeading Utc.formatShortDate
           Utc.setHoursMidnight Utc.getDay Utc.addDate).
  left. discriminate.
Defined.

(** * Further properties of the code *)

(** ** The collecting loop, continued *)

Section CollectMore.

Variable cron : Cron.
Variable endAtMs : Z.

Lemma collectRuns_answers iters cursor acc rs :
  collectRuns cron endAtMs iters cursor acc = Some rs →
  ∃ ext, rs = acc ++ ext
         ∧ Forall (λ ms, ∃ asked, nextRun cron asked = Fire ms) ext.
Proof.
  revert cursor acc rs.
  induction iters as [|iters IH]; intros cursor acc rs; simpl.
  - intros [= <-]. exists []. by rewrite app_nil_r.
  - destruct (nextRun cron cursor) as [nextMs| |] eqn:Hnext;
      [|intros [= <-]; exists []; by rewrite app_nil_r|done].
    case_decide; [intros [= <-]; exists []; by rewrite app_nil_r|].
    case_decide.
    + intros [= <-]. exists [nextMs]. split; [done|]. repeat constructor. eauto.
    + intros (ext & -> & Hext)%IH. exists (nextMs :: ext).
      rewrite <- app_assoc. split; [done|]. constructor; eauto.
Qed.

(** Once the bound covers the overshoot limit, its value is immaterial. *)
Lemma collectRuns_bound_irrelevant iters iters' cursor acc :
  (length acc <= MAX_RUNS_PER_JOB * 6)%nat →
  (MAX_RUNS_PER_JOB * 6 + 1 - length acc <= iters)%nat →
  (MAX_RUNS_PER_JOB * 6 + 1 - length acc <= iters')%nat →
  collectRuns cron endAtMs iters cursor acc
  = collectRuns cron endAtMs iters' cursor acc.
Proof.
  revert iters' cursor acc.
  induction iters as [|iters IH]; intros [|iters'] cursor acc Hacc Hn Hm;
    try (exfalso; bounds).
  simpl. destruct (nextRun cron cursor) as [nextMs| |]; [|done|done].
  case_decide; [done|]. case_decide as Hcap; [done|].
  rewrite length_app in Hcap. simpl in Hcap.
  apply IH; rewrite ?length_app; simpl; bounds.
Qed.

Variable fires : Z → Prop.
Hypothesis cron_enumerates : enumerates fires cron.

Lemma collectRuns_fires iters cursor acc rs :
  collectRuns cron endAtMs iters cursor acc = Some rs →
  ∃ ext, rs = acc ++ ext ∧ Forall (λ ms, fires ms ∧ cursor < ms) ext.
Proof.
  revert cursor acc rs.
  induction iters as [|iters IH]; intros cursor acc rs; simpl.
  - intros [= <-]. exists []. by rewrite app_nil_r.
  - pose proof (cron_enumerates cursor) as Hspec.
    destruct (nextRun cron cursor) as [nextMs| |];
      [|intros [= <-]; exists []; by rewrite app_nil_r|done].
    destruct Hspec as (Hlt & Hfire & _).
    case_decide; [intros [= <-]; exists []; by rewrite app_nil_r|].
    case_decide.
    + intros [= <-]. exists [nextMs]. split; [done|]. by repeat constructor.
    + intros (ext & -> & Hext)%IH. exists (nextMs :: ext).
      rewrite <- app_assoc. split; [done|]. constructor; [done|].
      eapply Forall_impl; [exact Hext|]. simpl. intros ms [? ?]. split; [done|lia].
Qed.

Hypothesis fires_spaced : spaced fires.

(** Unless the loop was cut short by the overshoot limit or by its
    iteration bound, it has collected every fire instant after the cursor
    and not after [endAtMs]. *)
Lemma collectRuns_complete iters cursor acc rs t :
  collectRuns cron endAtMs iters cursor acc = Some rs →
  (length rs < length acc + iters)%nat →
  (length rs <= MAX_RUNS_PER_JOB * 6)%nat →
  fires t → cursor < t <= endAtMs → t ∈ rs.
Proof.
  revert cursor acc rs.
  induction iters as [|iters IH]; intros cursor acc rs; simpl.
  - intros [= <-] ?. lia.
  - pose proof (cron_enumerates cursor) as Hspec.
    destruct (nextRun cron cursor) as [nextMs| |]; [| |done].
    + destruct Hspec as (Hlt & Hfire & Hgap).
      case_decide as Hend.
      { intros [= <-] _ _ Ht Hwin. destruct (Hgap t); [lia|done]. }
      case_decide as Hcap.
      { intros [= <-] _ Hlen. exfalso. lia. }
      intros Hrs Hiters Hlen Ht Hwin.
      destruct (Z.lt_trichotomy t nextMs) as [Hlow|[->|Hhigh]].
      * destruct (Hgap t); [lia|done].
      * apply collectRuns_extends in Hrs as (ext & -> & _).
        rewrite <- app_assoc. apply elem_of_app. right.
        apply elem_of_app. left. by apply list_elem_of_singleton.
      * apply (IH _ _ _ Hrs); [rewrite length_app; simpl; lia|done|done|].
        pose proof (fires_spaced _ _ Hfire Ht Hhigh). lia.
    + intros [= <-] _ _ Ht Hwin. destruct (Hspec t); [lia|done].
Qed.

End CollectMore.

Lemma collectRuns_returns cron endAtMs fires iters cursor acc :
  enumerates fires cron →
  is_Some (collectRuns cron endAtMs iters cursor acc).
Proof.
  intros Hspec. revert cursor acc.
  induction iters as [|iters IH]; intros cursor acc; simpl; [done|].
  specialize (Hspec cursor).
  destruct (nextRun cron cursor); [|done|done].
  repeat case_decide; done || apply IH.
Qed.

(** ** The per-job projector, continued *)

(** X1.  [upcomingRunsForJob] invents no instant: each one it returns is
    an answer of the job's evaluator to some cursor. *)
Theorem upcomingRunsForJob_only_evaluator_answers
    (newCron : string → option string → option Cron)
    (dateKey : Z → option string → string) j startAtMs endAtMs :
  Forall (λ ms, ∃ cron asked,
            newCron (getCronExpr (job_schedule j))
                    (JS.or_undefined (getCronTz (job_schedule j))) = Some cron
            ∧ nextRun cron asked = Fire ms)
    (runs (upcomingRunsForJob newCron dateKey j startAtMs endAtMs)).
Proof.
  destruct (collectedRuns newCron j startAtMs endAtMs) as [raw|] eqn:Hraw.
  - pose proof (upcomingRunsForJob_sublist newCron dateKey _ _ _ _ Hraw) as Hsub.
    unfold collectedRuns in Hraw.
    destruct (newCron _ _) as [cron|] eqn:Hcron; [|done].
    apply collectRuns_answers in Hraw as (ext & -> & Hext).
    rewrite Forall_forall in Hext. apply Forall_forall. intros ms Hms.
    destruct (Hext ms) as [asked Hasked]; [by eapply elem_of_sublist|]. eauto.
  - unfold upcomingRunsForJob. case_decide; [constructor|].
    rewrite Hraw. constructor.
Qed.

(** X2.  The iteration bound of the collecting loop is never what stops
    it: started on an empty list, the loop gives the same outcome for
    every bound from 121 up, [MAX_ITERATIONS_PER_JOB] included. *)
Theorem iteration_bound_never_reached cron endAtMs iters startAtMs :
  (MAX_RUNS_PER_JOB * 6 + 1 <= iters)%nat →
  collectRuns cron endAtMs iters startAtMs []
  = collectRuns cron endAtMs MAX_ITERATIONS_PER_JOB startAtMs [].
Proof.
  intros Hiters. apply collectRuns_bound_irrelevant; simpl; bounds.
Qed.

(** X3.  When the evaluator enumerates fire instants that are more than
    a second apart and the result is not flagged as capped, the result
    holds exactly the fire instants after [startAtMs] and not after
    [endAtMs]. *)
Theorem uncapped_projection_is_complete
    (newCron : string → option string → option Cron)
    (dateKey : Z → option string → string) (fires : Z → Prop)
    j cron startAtMs endAtMs t :
  getCronExpr (job_schedule j) ≠ "" →
  newCron (getCronExpr (job_schedule j))
          (JS.or_undefined (getCronTz (job_schedule j))) = Some cron →
  enumerates fires cron →
  spaced fires →
  wasCapped (upcomingRunsForJob newCron dateKey j startAtMs endAtMs) = false →
  t ∈ runs (upcomingRunsForJob newCron dateKey j startAtMs endAtMs)
  ↔ fires t ∧ startAtMs < t <= endAtMs.
Proof.
  intros Hexpr Hcron Hspec Hspaced.
  unfold upcomingRunsForJob, collectedRuns. case_decide; [done|].
  rewrite Hcron.
  destruct (collectRuns_returns cron endAtMs fires MAX_ITERATIONS_PER_JOB
              startAtMs [] Hspec) as [raw Hraw].
  rewrite Hraw.
  destruct (capRuns_cases dateKey (getCronTz (job_schedule j)) raw)
    as [[Hlen ->]|[(_ & _ & -> & _)|(_ & _ & -> & _)]]; cbn [runs wasCapped];
    [intros _|done|done].
  split.
  - intros Ht.
    destruct (collectRuns_fires _ _ _ Hspec _ _ _ _ Hraw) as (ext & -> & Hfires).
    destruct (collectRuns_extends _ _ _ _ _ _ Hraw) as (ext' & Heq & Hend & _).
    simpl in *. subst ext'.
    rewrite Forall_forall in Hfires, Hend.
    destruct (Hfires t Ht). specialize (Hend t Ht). simpl in Hend. done.
  - intros [Ht Hwin].
    eapply (collectRuns_complete cron endAtMs fires Hspec Hspaced); try done.
    + simpl. bounds.
    + bounds.
Qed.

Lemma every_enumerates (period : Z) :
  0 < period → enumerates (λ t, t `mod` period = 0) (Utc.every period).
Proof.
  intros Hp cursor. simpl.
  pose proof (Z.div_mod cursor period) as Hdiv.
  pose proof (Z.mod_pos_bound cursor period Hp) as Hmod.
  split_and!.
  - nia.
  - apply Z_mod_mult.
  - intros u [Hlow Hhigh] Hu.
    pose proof (Z.div_mod u period) as Hudiv. rewrite Hu in Hudiv.
    assert (cursor `div` period < u `div` period) by nia.
    assert (u `div` period < cursor `div` period + 1) by nia.
    lia.
Qed.

Lemma multiples_spaced (period : Z) :
  1000 < period → spaced (λ t, t `mod` period = 0).
Proof.
  intros Hp t u Ht Hu Hlt.
  pose proof (Z.div_mod t period) as Htdiv. rewrite Ht in Htdiv.
  pose proof (Z.div_mod u period) as Hudiv. rewrite Hu in Hudiv.
  assert (t `div` period < u `div` period) by nia. nia.
Qed.

Lemma iteration_bound_never_reached_witness :
  collectRuns (Utc.every (5 * 60 * 1000)) (Utc.nowMs + 2 * DAY_MS) 121 Utc.nowMs []
  = collectRuns (Utc.every (5 * 60 * 1000)) (Utc.nowMs + 2 * DAY_MS)
      MAX_ITERATIONS_PER_JOB Utc.nowMs [].
Proof.
  apply (iteration_bound_never_reached (Utc.every (5 * 60 * 1000))).
  vm_compute. lia.
Defined.

Lemma uncapped_projection_is_complete_witness :
  1700006400000
  ∈ runs (upcomingRunsForJob Utc.newCron Utc.dateKey
            (Utc.cronJob "nightly" "0 0 * * *")
            Utc.nowMs (Utc.nowMs + 7 * DAY_MS)).
Proof.
  apply (uncapped_projection_is_complete Utc.newCron Utc.dateKey
           (λ t, t `mod` DAY_MS = 0) (Utc.cronJob "nightly" "0 0 * * *")
           (Utc.every DAY_MS)).
  - vm_compute. discriminate.
  - reflexivity.
  - apply every_enumerates. reflexivity.
  - apply multiples_spaced. reflexivity.
  - vm_compute. reflexivity.
  - split; [vm_compute; reflexivity|]. vm_compute. split; [reflexivity|discriminate].
Defined.

(** ** The agenda, continued *)

Lemma or_str_nonempty (a : option string) (b : string) :
  b ≠ "" → JS.or_str a b ≠ "".
Proof. intros Hb. unfold JS.or_str. destruct a; [case_decide|]; done. Qed.

Section AgendaMore.

Variable newCron : string → option string → option Cron.
Variable dateKey : Z → option string → string.
Variable localeCompare : string → string → Z.
Variable formatDayHeading : Z → string.

Local Abbreviation project := (upcomingRunsForJob newCron dateKey).
Local Abbreviation pushed := (pushedItems newCron dateKey).
Local Abbreviation build := (buildAgendaItems newCron dateKey localeCompare).
Local Abbreviation theAgenda :=
  (agenda newCron dateKey localeCompare formatDayHeading).

Lemma upcomingRunsForJob_length j startAtMs endAtMs :
  (length (runs (project j startAtMs endAtMs)) <= MAX_RUNS_PER_JOB)%nat.
Proof.
  unfold upcomingRunsForJob. case_decide; [simpl; lia|].
  destruct (collectedRuns newCron j startAtMs endAtMs) as [raw|]; [|simpl; lia].
  destruct (capRuns_cases dateKey (getCronTz (job_schedule j)) raw)
    as [[Hlen ->]|[(_ & _ & -> & Htake)|(_ & _ & -> & Hcap)]];
    cbn [runs]; [done|lia|bounds].
Qed.

Lemma pushedItems_length jobs startAtMs endAtMs :
  (length (pushed jobs startAtMs endAtMs) <= MAX_RUNS_PER_JOB * length jobs)%nat.
Proof.
  unfold pushedItems. induction jobs as [|j jobs IH]; [simpl; lia|].
  rewrite bind_cons, length_app. simpl length.
  assert (length (itemsOfJob newCron dateKey startAtMs endAtMs j)
          <= MAX_RUNS_PER_JOB)%nat.
  { unfold itemsOfJob. case_decide; [simpl; lia|].
    rewrite length_fmap. apply upcomingRunsForJob_length. }
  lia.
Qed.

(** X4.  The agenda counts at most [MAX_RUNS_PER_JOB] instances per job
    of the list. *)
Theorem agenda_total_bounded jobs nowMs :
  (agenda_total (theAgenda jobs nowMs) <= MAX_RUNS_PER_JOB * length jobs)%nat.
Proof.
  unfold agenda. cbn [agenda_total]. unfold buildAgendaItems.
  rewrite js_sort_length. apply pushedItems_length.
Qed.

(** X5.  With at most twelve jobs the global cap cannot apply: the flag
    is off and every counted instance is shown. *)
Theorem agenda_uncapped_below_thirteen_jobs jobs nowMs :
  (length jobs <= 12)%nat →
  agenda_wasGlobalCapped (theAgenda jobs nowMs) = false
  ∧ agenda_shown (theAgenda jobs nowMs) = agenda_total (theAgenda jobs nowMs)
  ∧ agenda_groups (theAgenda jobs nowMs) ≫= group_items
    ≡ₚ pushed jobs nowMs (nowMs + AGENDA_LOOKAHEAD_DAYS * 24 * 60 * 60 * 1000).
Proof.
  intros Hjobs.
  pose proof (pushedItems_length jobs nowMs
    (nowMs + AGENDA_LOOKAHEAD_DAYS * 24 * 60 * 60 * 1000)) as Hlen.
  pose proof (groupAgendaByDay_items dateKey localeCompare formatDayHeading) as Hgroups.
  unfold agenda. cbn [agenda_wasGlobalCapped agenda_shown agenda_total agenda_groups].
  unfold buildAgendaItems in *. rewrite js_sort_length.
  assert (Hmin : Nat.min (length (pushed jobs nowMs
      (nowMs + AGENDA_LOOKAHEAD_DAYS * 24 * 60 * 60 * 1000))) MAX_AGENDA_ITEMS_TOTAL
    = length (pushed jobs nowMs
      (nowMs + AGENDA_LOOKAHEAD_DAYS * 24 * 60 * 60 * 1000))) by bounds.
  rewrite Hmin. split_and!.
  - apply bool_decide_eq_false_2. lia.
  - done.
  - rewrite Hgroups. unfold JS.slice0.
    rewrite take_ge by (by rewrite js_sort_length).
    apply js_sort_Permutation.
Qed.

(** X6.  With an evaluator that never answers an instant before its
    cursor, every instance the agenda shows lies between [nowMs] and
    seven days later. *)
Theorem agenda_items_in_lookahead jobs nowMs :
  evaluator_contract newCron →
  Forall (λ g,
            Forall (λ it, nowMs <= runAtMs it
                          <= nowMs + AGENDA_LOOKAHEAD_DAYS * DAY_MS)
                   (group_items g))
    (agenda_groups (theAgenda jobs nowMs)).
Proof.
  intros Hcontract.
  apply Forall_forall. intros g Hg. apply Forall_forall. intros it Hit.
  pose proof (agenda_group_items newCron dateKey localeCompare formatDayHeading
                _ _ _ _ Hg Hit) as Hin.
  apply elem_of_pushedItems in Hin as (_ & _ & Hrun).
  pose proof (upcomingRunsForJob_window newCron dateKey (job it) nowMs
                (nowMs + AGENDA_LOOKAHEAD_DAYS * 24 * 60 * 60 * 1000) Hcontract)
    as Hwindow.
  rewrite Forall_forall in Hwindow. specialize (Hwindow _ Hrun).
  simpl in Hwindow. bounds.
Qed.


End AgendaMore.

(** ** Grouping by day *)

Section GroupMore.

Variable dateKey : Z → option string → string.
Variable localeCompare : string → string → Z.
Variable formatDayHeading : Z → string.
Variable timeZone : option string.

Local Abbreviation keyOf it := (dateKey (runAtMs it) timeZone).
Local Abbreviation group_of := (group_of dateKey timeZone).

Lemma group_of_other seen x g :
  keyOf x ≠ g.1 → group_of seen g → group_of (seen ++ [x]) g.
Proof.
  intros Hne [Hitems Hhead]. split; [|done].
  rewrite filter_app, <- Hitems, filter_cons_False by done.
  by rewrite filter_nil, app_nil_r.
Qed.

Lemma groupPush_keys x groups :
  (groupPush (keyOf x) x groups).*1
  = if decide (keyOf x ∈ groups.*1) then groups.*1 else groups.*1 ++ [keyOf x].
Proof.
  induction groups as [|[k [h its]] rest IH]; [done|].
  cbn [groupPush]. rewrite fmap_cons. cbn [fst].
  destruct (decide (k = keyOf x)) as [->|Hk].
  - rewrite decide_True by left. done.
  - rewrite fmap_cons, IH. cbn [fst].
    destruct (decide (keyOf x ∈ rest.*1)) as [Hin|Hin].
    + rewrite decide_True by (by right). done.
    + rewrite decide_False; [done|].
      intros [?|?]%elem_of_cons; done.
Qed.

Lemma groupPush_group_of seen x groups :
  NoDup groups.*1 →
  (keyOf x ∉ groups.*1 → filter (λ it, keyOf it = keyOf x) seen = []) →
  Forall (group_of seen) groups →
  Forall (group_of (seen ++ [x])) (groupPush (keyOf x) x groups).
Proof.
  induction groups as [|[k [h its]] rest IH]; intros Hnodup Hfresh Hall.
  - repeat constructor; simpl.
    + rewrite filter_app, Hfresh by apply not_elem_of_nil.
      by rewrite filter_cons_True, filter_nil.
    + by exists x.
  - rewrite fmap_cons in Hnodup, Hfresh. cbn [fst] in Hnodup, Hfresh.
    apply NoDup_cons in Hnodup as [Hk Hnodup].
    apply Forall_cons in Hall as [[Hitems (first & Hhead & Hh)] Hall].
    cbn [fst snd] in Hitems, Hhead, Hh. cbn [groupPush].
    destruct (decide (k = keyOf x)) as [->|Hne].
    + constructor.
      * split; cbn [fst snd].
        -- rewrite filter_app, <- Hitems, filter_cons_True by done.
           by rewrite filter_nil.
        -- exists first. split; [|done]. by destruct its.
      * rewrite Forall_forall in Hall. apply Forall_forall. intros g Hg.
        apply group_of_other; [|by apply Hall].
        intros Hg1. apply Hk. rewrite Hg1. apply list_elem_of_fmap. by exists g.
    + constructor.
      * apply group_of_other; [by intros ?|]. split; [done|by exists first].
      * apply IH; [done| |done]. intros Hnot. apply Hfresh.
        intros [?|?]%elem_of_cons; done.
Qed.

Lemma filter_nil_intro {A} (P : A → Prop) `{!∀ x, Decision (P x)} (l : list A) :
  Forall (λ x, ¬ P x) l → filter P l = [].
Proof.
  induction 1 as [|x l Hx Hl IH]; [done|]. by rewrite filter_cons_False.
Qed.

Lemma rawGroups_spec items :
  let groups :=
    foldl (λ groups item, groupPush (keyOf item) item groups) [] items in
  NoDup groups.*1
  ∧ Forall (group_of items) groups
  ∧ Forall (λ it, keyOf it ∈ groups.*1) items.
Proof.
  induction items as [|x items IH] using rev_ind; [repeat constructor|].
  rewrite foldl_app. cbn [foldl]. destruct IH as (Hnodup & Hgroups & Hkeys).
  set (groups := foldl (λ groups item, groupPush (keyOf item) item groups) [] items) in *.
  cbv zeta. split_and!.
  - rewrite groupPush_keys. case_decide as Hin; [done|].
    apply NoDup_app. split_and!; [done| |apply NoDup_singleton].
    intros k Hk ->%list_elem_of_singleton. done.
  - apply groupPush_group_of; [done| |done].
    intros Hnot. apply filter_nil_intro.
    rewrite Forall_forall in Hkeys. apply Forall_forall. intros it Hit Heq.
    apply Hnot. rewrite <- Heq. by apply Hkeys.
  - rewrite groupPush_keys. apply Forall_app. split.
    + eapply Forall_impl; [exact Hkeys|]. simpl. intros it Hit.
      case_decide; [done|]. apply elem_of_app. by left.
    + repeat constructor. case_decide; [done|].
      apply elem_of_app. right. by apply list_elem_of_singleton.
Qed.

(** X8.  [groupAgendaByDay] partitions its items by day: the groups
    have pairwise different keys, every item's day has a group, and a
    group holds exactly the items of its day, in their order in the
    input; so no group is empty, and its heading is that of its first
    item. *)
Theorem groupAgendaByDay_partitions items :
  let groups :=
    groupAgendaByDay dateKey localeCompare formatDayHeading items timeZone in
  NoDup (group_key <$> groups)
  ∧ Forall (λ g,
              group_items g = filter (λ it, keyOf it = group_key g) items
              ∧ ∃ first, head (group_items g) = Some first
                         ∧ group_heading g = formatDayHeading (runAtMs first))
      groups
  ∧ Forall (λ it, keyOf it ∈ group_key <$> groups) items.
Proof.
  destruct (rawGroups_spec items) as (Hnodup & Hgroups & Hkeys).
  unfold groupAgendaByDay. cbv zeta.
  set (raw := foldl (λ groups item, groupPush (keyOf item) item groups) [] items) in *.
  set (mk := λ '(key, (headingMs, its)),
               {| group_key := key;
                  group_heading := formatDayHeading headingMs;
                  group_items := its |}).
  assert (Hkey : group_key <$> (mk <$> raw) = raw.*1).
  { rewrite <- list_fmap_compose. apply list_fmap_ext.
    by intros _ [k [h its]] _. }
  split_and!.
  - rewrite js_sort_Permutation. by rewrite Hkey.
  - rewrite js_sort_Permutation. apply Forall_fmap.
    eapply Forall_impl; [exact Hgroups|].
    intros [k [h its]] [Hitems (first & Hhead & Hh)]. cbn in *.
    split; [done|]. exists first. by rewrite Hh.
  - eapply Forall_impl; [exact Hkeys|]. simpl. intros it Hit.
    by rewrite js_sort_Permutation, Hkey.
Qed.

End GroupMore.

(** ** The week view, continued *)

Lemma take_min_length {A} (n : nat) (l : list A) :
  take (Nat.min (length l) n) l = take n l.
Proof.
  destruct (decide (length l <= n)%nat) as [Hle|Hgt].
  - rewrite Nat.min_l by done. by rewrite firstn_all, take_ge.
  - rewrite Nat.min_r by lia. done.
Qed.

Section WeekMore.

Variable newCron : string → option string → option Cron.
Variable dateKey : Z → option string → string.
Variable localeCompare : string → string → Z.
Variable formatDayHeading : Z → string.
Variable formatShortDate : Z → string.
Variable setHoursMidnight : Z → Z.
Variable getDay : Z → Z.
Variable addDate : Z → Z → Z.

Local Abbreviation futureItems :=
  (weekItems newCron dateKey localeCompare setHoursMidnight getDay addDate).
Local Abbreviation theWeek :=
  (week newCron dateKey localeCompare formatDayHeading formatShortDate
     setHoursMidnight getDay addDate).

Lemma byDayPush_default (m : gmap string (list AgendaItem)) item k :
  default [] (byDayPush dateKey m item !! k)
  = default [] (m !! k)
    ++ (if decide (dateKey (runAtMs item) None = k) then [item] else []).
Proof.
  unfold byDayPush.
  destruct (m !! dateKey (runAtMs item) None) as [l|] eqn:Hold;
    (case_decide as Hk;
     [subst k; rewrite lookup_insert_eq, Hold
     |rewrite lookup_insert_ne by done; by rewrite app_nil_r]); done.
Qed.

Lemma foldl_byDayPush_default items (m : gmap string (list AgendaItem)) k :
  default [] (foldl (byDayPush dateKey) m items !! k)
  = default [] (m !! k) ++ filter (λ it, dateKey (runAtMs it) None = k) items.
Proof.
  revert m. induction items as [|item items IH]; intros m; simpl.
  - by rewrite app_nil_r.
  - rewrite IH, byDayPush_default, <- app_assoc. f_equal.
    rewrite filter_cons. by case_decide.
Qed.

(** X9.  A day slot of the week view holds exactly the retained items
    whose local date is the slot's key, in ascending order of instant. *)
Theorem week_day_slot_contents jobs nowMs :
  Forall (λ d,
            day_items d
            ≡ₚ filter (λ it, dateKey (runAtMs it) None = day_key d)
                 (take MAX_AGENDA_ITEMS_TOTAL (futureItems jobs nowMs))
            ∧ StronglySorted (λ a b, runAtMs a <= runAtMs b) (day_items d))
    (week_days (theWeek jobs nowMs)).
Proof.
  unfold week. cbn [week_days]. apply Forall_fmap, Forall_forall.
  intros idx _. cbn [day_items day_key compose]. split.
  - rewrite js_sort_Permutation, foldl_byDayPush_default, lookup_empty.
    unfold JS.slice0. by rewrite take_min_length.
  - eapply StronglySorted_impl; [|apply js_sort_sorted].
    + intros a b. simpl. lia.
    + intros a b. lia.
    + intros a b c. lia.
Qed.

(** X10.  In a zone with a fixed offset, [startOfWeekMs] answers a local
    midnight that falls on the configured weekday, at most six days
    before the midnight of the given instant; the seven days from it
    contain the instant. *)
Theorem startOfWeekMs_is_week_start epochMs weekStartsOn :
  fixed_offset_dates setHoursMidnight getDay addDate →
  0 <= weekStartsOn <= 1 →
  let weekStartMs := startOfWeekMs setHoursMidnight getDay addDate epochMs weekStartsOn in
  getDay weekStartMs = weekStartsOn
  ∧ weekStartMs <= epochMs < weekStartMs + 7 * DAY_MS
  ∧ ∃ back, 0 <= back <= 6
            ∧ weekStartMs = setHoursMidnight epochMs - back * DAY_MS.
Proof.
  intros (Hmidnight & Hday & Hadd & Hnext) Hws. unfold startOfWeekMs. cbv zeta.
  specialize (Hmidnight epochMs).
  pose proof (Hday (setHoursMidnight epochMs)) as Hd.
  set (d := setHoursMidnight epochMs) in *.
  set (day := getDay d) in *.
  rewrite Z.rem_mod_nonneg by lia.
  pose proof (Z.mod_pos_bound (day - weekStartsOn + 7) 7 ltac:(lia)) as Hdiff.
  pose proof (Z.div_mod (day - weekStartsOn + 7) 7 ltac:(lia)) as Hdivmod.
  set (diff := (day - weekStartsOn + 7) `mod` 7) in *.
  rewrite Hadd. split_and!.
  - rewrite Hnext. fold day.
    replace (day + - diff)
      with (weekStartsOn + ((day - weekStartsOn + 7) `div` 7 - 1) * 7) by lia.
    rewrite Z_mod_plus_full. apply Z.mod_small. lia.
  - bounds.
  - bounds.
  - exists diff. split; [lia|]. lia.
Qed.

End WeekMore.

Lemma utc_fixed_offset_dates :
  fixed_offset_dates Utc.setHoursMidnight Utc.getDay Utc.addDate.
Proof.
  unfold fixed_offset_dates, Utc.setHoursMidnight, Utc.getDay, Utc.addDate.
  split_and!.
  - intros ms. pose proof (Z.mod_pos_bound ms DAY_MS). bounds.
  - intros ms. apply Z.mod_pos_bound. lia.
  - done.
  - intros ms n. rewrite Z.div_add by (unfold DAY_MS; lia).
    rewrite Zplus_mod_idemp_l. f_equal. lia.
Qed.

(** ** The job filter *)

Section FilterMore.

Variable trim : string → string.
Variable toLowerCase : string → string.
Variable includes : string → string → bool.

Local Abbreviation filtered := (filteredJobs trim toLowerCase includes).

Lemma elem_of_filteredJobs_enabled jobs query j :
  j ∈ filtered jobs query true → JS.to_bool (job_enabled j) = true.
Proof.
  unfold filteredJobs. intros [Hpass _]%list_elem_of_filter.
  unfold passesFilter in Hpass. by apply andb_prop in Hpass as [_ ?].
Qed.

(** X11.  The filter keeps jobs in their order and adds none; with
    "Enabled only" it keeps no disabled job, and what it keeps is what
    the same query keeps without it, minus the disabled jobs. *)
Theorem filteredJobs_keeps_order_and_enabled jobs query enabledOnly :
  filtered jobs query enabledOnly `sublist_of` jobs
  ∧ Forall (λ j, JS.to_bool (job_enabled j) = true) (filtered jobs query true)
  ∧ filtered jobs query true
    = filter (λ j, JS.to_bool (job_enabled j) = true) (filtered jobs query false).
Proof.
  split_and!.
  - apply sublist_filter.
  - apply Forall_forall. intros j. apply elem_of_filteredJobs_enabled.
  - unfold filteredJobs. rewrite list_filter_filter. apply list_filter_iff.
    intros j. unfold passesFilter. simpl. rewrite andb_true_r.
    rewrite andb_true_iff. tauto.
Qed.

(** X12.  A query that is empty once trimmed and lower-cased filters
    nothing out when "Enabled only" is off. *)
Theorem filteredJobs_blank_query jobs query :
  toLowerCase (trim query) = "" →
  filtered jobs query false = jobs.
Proof.
  intros Hblank. unfold filteredJobs. rewrite Hblank.
  induction jobs as [|j jobs IH]; [done|].
  rewrite filter_cons_True; [by rewrite IH|].
  unfold passesFilter. by rewrite bool_decide_eq_true_2.
Qed.

End FilterMore.

Section FilterViews.

Variable trim : string → string.
Variable toLowerCase : string → string.
Variable includes : string → string → bool.
Variable newCron : string → option string → option Cron.
Variable dateKey : Z → option string → string.
Variable localeCompare : string → string → Z.
Variable formatDayHeading : Z → string.
Variable formatShortDate : Z → string.
Variable setHoursMidnight : Z → Z.
Variable getDay : Z → Z.
Variable addDate : Z → Z → Z.

Local Abbreviation filtered := (filteredJobs trim toLowerCase includes).
Local Abbreviation theAgenda :=
  (agenda newCron dateKey localeCompare formatDayHeading).
Local Abbreviation theWeek :=
  (week newCron dateKey localeCompare formatDayHeading formatShortDate
     setHoursMidnight getDay addDate).

Lemma pushedItems_enabled jobs startAtMs endAtMs it :
  it ∈ pushedItems newCron dateKey jobs startAtMs endAtMs →
  job it ∈ jobs ∧ enabled it = JS.to_bool (job_enabled (job it)).
Proof.
  unfold pushedItems.
  intros (j & Hit & Hj)%list_elem_of_bind. unfold itemsOfJob in Hit.
  case_decide; [by apply elem_of_nil in Hit|].
  by apply list_elem_of_fmap in Hit as (ms & -> & _).
Qed.

(** X13.  With "Enabled only" checked, neither the agenda nor the week
    view shows an instance of a disabled job. *)
Theorem enabled_only_views_show_enabled_jobs jobs query nowMs :
  Forall (λ g, Forall (λ it, enabled it = true) (group_items g))
    (agenda_groups (theAgenda (filtered jobs query true) nowMs))
  ∧ Forall (λ d, Forall (λ it, enabled it = true) (day_items d))
      (week_days (theWeek (filtered jobs query true) nowMs)).
Proof.
  split; apply Forall_forall; intros slot Hslot; apply Forall_forall;
    intros it Hit.
  - pose proof (agenda_group_items newCron dateKey localeCompare formatDayHeading
                  _ _ _ _ Hslot Hit) as Hin.
    apply pushedItems_enabled in Hin as [Hjob ->].
    by eapply elem_of_filteredJobs_enabled.
  - pose proof (week_day_items newCron dateKey localeCompare formatDayHeading
                  formatShortDate setHoursMidnight getDay addDate
                  _ _ _ _ Hslot Hit) as Hin.
    apply weekItems_pushed in Hin as [_ Hin].
    apply pushedItems_enabled in Hin as [Hjob ->].
    by eapply elem_of_filteredJobs_enabled.
Qed.

End FilterViews.

(** ** The model of an agent *)

Lemma or_str_cases (a : option string) (b : string) :
  JS.or_str a b = b ∨ (a = Some (JS.or_str a b) ∧ JS.or_str a b ≠ "").
Proof.
  unfold JS.or_str. destruct a as [s|]; [|by left].
  case_decide; [by left|by right].
Qed.

(** X14.  [pickAgentModel] never answers the empty string: it answers
    one of the agent's own non-empty model fields, or the dash. *)
Theorem pickAgentModel_never_empty agent :
  pickAgentModel agent ≠ ""
  ∧ (pickAgentModel agent = "—"
     ∨ Some (pickAgentModel agent)
       ∈ [ agent_model agent;
           agent_primaryModel agent;
           match agent_defaults agent with
           | Some (Some (ModelName name)) => Some name
           | Some (Some (ModelObject primary)) => primary
           | _ => None
           end;
           agent_agentDefaults agent ≫= id ]).
Proof.
  split; [unfold pickAgentModel; by repeat apply or_str_nonempty|].
  unfold pickAgentModel.
  destruct (or_str_cases (agent_model agent)
    (JS.or_str (agent_primaryModel agent)
       (JS.or_str
          (match agent_defaults agent with
           | Some (Some (ModelName name)) => Some name
           | _ => None
           end)
          (JS.or_str
             (match agent_defaults agent with
              | Some (Some (ModelObject primary)) => Some (default "" primary)
              | _ => Some ""
              end)
             (JS.or_str (agent_agentDefaults agent ≫= id) "—")))))
    as [->|[Hm _]]; [|right; rewrite <- Hm; set_solver].
  destruct (or_str_cases (agent_primaryModel agent)
       (JS.or_str
          (match agent_defaults agent with
           | Some (Some (ModelName name)) => Some name
           | _ => None
           end)
          (JS.or_str
             (match agent_defaults agent with
              | Some (Some (ModelObject primary)) => Some (default "" primary)
              | _ => Some ""
              end)
             (JS.or_str (agent_agentDefaults agent ≫= id) "—"))))
    as [->|[Hp _]]; [|right; rewrite <- Hp; set_solver].
  destruct (or_str_cases
          (match agent_defaults agent with
           | Some (Some (ModelName name)) => Some name
           | _ => None
           end)
          (JS.or_str
             (match agent_defaults agent with
              | Some (Some (ModelObject primary)) => Some (default "" primary)
              | _ => Some ""
              end)
             (JS.or_str (agent_agentDefaults agent ≫= id) "—")))
    as [->|[Hd _]].
  2: { right. rewrite <- Hd. destruct (agent_defaults agent) as [[[name|primary]|]|];
       set_solver. }
  destruct (or_str_cases
             (match agent_defaults agent with
              | Some (Some (ModelObject primary)) => Some (default "" primary)
              | _ => Some ""
              end)
             (JS.or_str (agent_agentDefaults agent ≫= id) "—"))
    as [->|[Ho Hne]].
  2: { right. destruct (agent_defaults agent) as [[[name|[primary|]]|]|];
       simplify_eq/=; try done. rewrite <- Ho. set_solver. }
  destruct (or_str_cases (agent_agentDefaults agent ≫= id) "—")
    as [->|[Ha _]]; [by left|right; rewrite <- Ha; set_solver].
Qed.

(** ** Escaping on the legacy page *)

Lemma entity_cases c :
  (markup c ∧ ∃ body, entity c = String "&" body
                      ∧ Forall (λ d, ¬ markup d) (list_ascii_of_string body))
  ∨ (¬ markup c ∧ entity c = String c EmptyString).
Proof.
  unfold entity, markup. repeat case_decide; subst.
  - left. split; [tauto|]. eexists. split; [reflexivity|].
    repeat constructor; unfold markup, dquote; intros [?|[?|[?|[?|?]]]]; done.
  - left. split; [tauto|]. eexists. split; [reflexivity|].
    repeat constructor; unfold markup, dquote; intros [?|[?|[?|[?|?]]]]; done.
  - left. split; [tauto|]. eexists. split; [reflexivity|].
    repeat constructor; unfold markup, dquote; intros [?|[?|[?|[?|?]]]]; done.
  - left. split; [tauto|]. eexists. split; [reflexivity|].
    repeat constructor; unfold markup, dquote; intros [?|[?|[?|[?|?]]]]; done.
  - left. split; [tauto|]. eexists. split; [reflexivity|].
    repeat constructor; unfold markup, dquote; intros [?|[?|[?|[?|?]]]]; done.
  - right. split; [tauto|done].
Qed.

Lemma list_ascii_of_string_app a b :
  list_ascii_of_string (a +:+ b) = list_ascii_of_string a ++ list_ascii_of_string b.
Proof. induction a as [|c a IH]; simpl; [done|]. by rewrite IH. Qed.

(** X15.  In the output of [escapeHtml] no [<], [>], double quote or
    single quote is left; of the markup characters only [&] occurs. *)
Theorem escapeHtml_leaves_no_markup s :
  Forall (λ c, markup c → c = "&"%char) (list_ascii_of_string (escapeHtml s)).
Proof.
  unfold escapeHtml. generalize (default "" s). clear s. intros s.
  induction s as [|c s IH]; simpl; [constructor|].
  rewrite list_ascii_of_string_app. apply Forall_app. split; [|done].
  destruct (entity_cases c) as [(_ & body & -> & Hbody)|[Hc ->]]; simpl.
  - constructor; [done|]. eapply Forall_impl; [exact Hbody|]. simpl. tauto.
  - repeat constructor. tauto.
Qed.

Lemma entity_nonempty c : ∃ d body, entity c = String d body.
Proof.
  destruct (entity_cases c) as [(_ & body & -> & _)|[_ ->]]; eauto.
Qed.

(** X16.  [escapeHtml] loses nothing: two texts with the same escaped
    form are the same text. *)
Theorem escapeHtml_injective (a b : string) :
  escapeHtml (Some a) = escapeHtml (Some b) → a = b.
Proof.
  unfold escapeHtml. cbn [default]. revert b.
  induction a as [|c a IH]; intros [|d b]; simpl.
  - done.
  - destruct (entity_nonempty d) as (x & body & ->). done.
  - destruct (entity_nonempty c) as (x & body & ->). done.
  - unfold entity. repeat case_decide; subst; simpl; intros Heq;
      simplify_eq; f_equal; by apply IH.
Qed.

(** X17.  A text without markup characters is left as it is. *)
Theorem escapeHtml_plain_text (s : string) :
  Forall (λ c, ¬ markup c) (list_ascii_of_string s) →
  escapeHtml (Some s) = s.
Proof.
  unfold escapeHtml. simpl. induction s as [|c s IH]; simpl; [done|].
  intros [Hc Hs]%Forall_cons.
  destruct (entity_cases c) as [[? _]|[_ ->]]; [done|]. simpl.
  by rewrite IH.
Qed.

Lemma escapeHtml_injective_witness : "<b>"%string = "<b>"%string.
Proof. apply (escapeHtml_injective "<b>" "<b>"). reflexivity. Defined.

Lemma escapeHtml_plain_text_witness :
  escapeHtml (Some "nightly-backup") = "nightly-backup".
Proof.
  apply (escapeHtml_plain_text "nightly-backup").
  simpl. repeat constructor; unfold markup, dquote; vm_compute;
    intros [?|[?|[?|[?|?]]]]; try discriminate.
Defined.

(** ** The table of the verification script *)

Lemma string_length_app (a b : string) :
  String.length (a +:+ b) = (String.length a + String.length b)%nat.
Proof. induction a as [|c a IH]; simpl; [done|]. by rewrite IH. Qed.

Lemma take_length (n : nat) (s : string) :
  String.length (JSString.take n s) = Nat.min n (String.length s).
Proof.
  revert s. induction n as [|n IH]; intros [|c s]; simpl; try done.
  by rewrite IH.
Qed.

Lemma repeat_length c (n : nat) : String.length (JSString.repeat c n) = n.
Proof. induction n as [|n IH]; simpl; [done|]. by rewrite IH. Qed.

Lemma clipAndPad_length value (width : nat) :
  String.length (clipAndPad value width) = width.
Proof.
  unfold clipAndPad, JSString.padEnd. repeat case_decide;
    rewrite ?string_length_app, ?take_length, ?repeat_length; simpl; lia.
Qed.

Lemma join_length sep parts :
  String.length (JSString.join sep parts)
  = (sum_list (String.length <$> parts)
     + String.length sep * (length parts - 1))%nat.
Proof.
  induction parts as [|x [|y parts] IH]; [simpl; lia|simpl; lia|].
  change (JSString.join sep (x :: y :: parts))
    with (x +:+ sep +:+ JSString.join sep (y :: parts)).
  rewrite !string_length_app, IH. simpl. lia.
Qed.

Lemma tableWidths_lookup rows :
  Forall (λ col, (default 0 (tableWidths rows !! col_key col) <= col_max col)%nat)
    columns.
Proof.
  unfold tableWidths, columns. cbn [foldl col_key col_title col_max].
  repeat (apply Forall_cons_2;
          [cbn [col_key col_max];
           repeat (rewrite lookup_insert_ne by discriminate);
           rewrite lookup_insert_eq; apply Nat.le_min_l|]).
  apply Forall_nil_2.
Qed.

Lemma sum_list_le {A} (f g : A → nat) (l : list A) :
  Forall (λ x, (f x <= g x)%nat) l →
  (sum_list (f <$> l) <= sum_list (g <$> l))%nat.
Proof.
  induction 1 as [|x l Hx _ IH]; [done|].
  change (f x + sum_list (f <$> l) <= g x + sum_list (g <$> l))%nat. lia.
Qed.

Lemma string_app_assoc (a b c : string) : (a +:+ b) +:+ c = a +:+ (b +:+ c).
Proof.
  induction a as [|x a IH]; [done|].
  change (String x ((a +:+ b) +:+ c) = String x (a +:+ (b +:+ c))).
  by rewrite IH.
Qed.

Lemma take_drop_string (n : nat) (s : string) :
  JSString.take n s +:+ JSString.drop n s = s.
Proof.
  revert s. induction n as [|n IH]; intros [|c s]; try done.
  change (String c (JSString.take n s +:+ JSString.drop n s) = String c s).
  by rewrite IH.
Qed.

(** X18.  [clipAndPad] always answers a text of exactly the asked
    width, whether it pads, clips with an ellipsis, or clips bare; and
    the answer begins with the first [width - 3] characters of the text
    (all of it when it is shorter). *)
Theorem clipAndPad_fills_width value (width : nat) :
  String.length (clipAndPad value width) = width
  ∧ ∃ tail, clipAndPad value width
            = JSString.take (width - 3) (default "-" value) +:+ tail.
Proof.
  split.
  - unfold clipAndPad, JSString.padEnd. repeat case_decide;
      rewrite ?string_length_app, ?take_length, ?repeat_length; simpl; lia.
  - unfold clipAndPad, JSString.padEnd. case_decide as Hlong.
    + case_decide as Hsmall; [|by eexists].
      replace (width - 3)%nat with 0%nat by lia. by eexists.
    + eexists.
      rewrite <- (take_drop_string (width - 3) (default "-" value)) at 1.
      apply string_app_assoc.
Qed.

(** X19.  All the lines [printTable] logs (the header, the rule and one
    line per row) have the same length, which is at most 162. *)
Theorem printTable_lines_aligned rows :
  ∃ lineWidth : nat,
    (lineWidth <= 162)%nat
    ∧ Forall (λ line, String.length line = lineWidth) (printTable rows).
Proof.
  exists (sum_list ((λ col, default 0%nat (tableWidths rows !! col_key col))
                      <$> columns) + 15)%nat.
  split.
  - pose proof (sum_list_le _ _ _ (tableWidths_lookup rows)) as Hsum.
    change (sum_list (col_max <$> columns)) with 147%nat in Hsum. lia.
  - unfold printTable. cbv zeta.
    repeat apply Forall_cons_2;
      [| |apply Forall_fmap, Forall_forall; intros row _; cbn [compose]];
      rewrite join_length, <- list_fmap_compose, length_fmap;
      (erewrite (list_fmap_ext _ (λ col, default 0%nat (tableWidths rows !! col_key col)));
       [|intros ???; cbn [compose]; by rewrite ?clipAndPad_length, ?repeat_length]);
      simpl length; simpl String.length; lia.
Qed.

(** ** Tolerant JSON parsing *)

Lemma indexOf_range c s :
  JSString.indexOf c s = -1 ∨ 0 <= JSString.indexOf c s.
Proof.
  induction s as [|d s IH]; simpl; [by left|].
  repeat case_decide; lia.
Qed.

Lemma indexOf_after_noise c noise s :
  Forall (λ d, d ≠ c) (list_ascii_of_string noise) →
  JSString.indexOf c (noise +:+ s)
  = if decide (JSString.indexOf c s >= 0)
    then Z.of_nat (String.length noise) + JSString.indexOf c s
    else -1.
Proof.
  induction noise as [|d noise IH].
  - intros _. change ("" +:+ s) with s.
    destruct (indexOf_range c s); case_decide; simpl; lia.
  - intros [Hd Hnoise]%Forall_cons.
    change (String d noise +:+ s) with (String d (noise +:+ s)).
    cbn [JSString.indexOf]. rewrite decide_False by done. rewrite IH by done.
    change (String.length (String d noise)) with (S (String.length noise)).
    rewrite Nat2Z.inj_succ. repeat case_decide; lia.
Qed.

Lemma drop_app_length (a b : string) :
  JSString.drop (String.length a) (a +:+ b) = b.
Proof. induction a as [|c a IH]; simpl; [by destruct b|done]. Qed.

(** X20.  Text printed before the JSON document is skipped: when the
    output as a whole does not parse, is already trimmed, and consists
    of some text without brace or bracket followed by a document that
    starts with one and parses, [parseJsonOrFail] returns that
    document. *)
Theorem parseJsonOrFail_skips_leading_noise {J : Type}
    (JSON_parse : string → J + string) (trim collapseWhitespace : string → string)
    (label noise : string) (c : ascii) (rest err_message : string) (value : J) :
  noise ≠ "" →
  Forall (λ d, d ≠ "{"%char ∧ d ≠ "["%char) (list_ascii_of_string noise) →
  c = "{"%char ∨ c = "["%char →
  trim (noise +:+ String c rest) = noise +:+ String c rest →
  JSON_parse (noise +:+ String c rest) = inr err_message →
  JSON_parse (String c rest) = inl value →
  parseJsonOrFail JSON_parse trim collapseWhitespace label (noise +:+ String c rest)
  = Returned value.
Proof.
  intros Hnoise Hclean Hc Htrim Hfail Hok. unfold parseJsonOrFail.
  rewrite decide_False by (by destruct noise).
  rewrite Hfail, Htrim. cbv zeta.
  rewrite !indexOf_after_noise
    by (eapply Forall_impl; [exact Hclean|]; simpl; tauto).
  assert (Hlen : 0 < Z.of_nat (String.length noise))
    by (destruct noise; [done|simpl; lia]).
  assert (Hstart :
    (if decide ((if decide (JSString.indexOf "{" (String c rest) >= 0)
                 then Z.of_nat (String.length noise)
                      + JSString.indexOf "{" (String c rest)
                 else -1) >= 0
                ∧ (if decide (JSString.indexOf "[" (String c rest) >= 0)
                   then Z.of_nat (String.length noise)
                        + JSString.indexOf "[" (String c rest)
                   else -1) >= 0)
     then Z.min
            (if decide (JSString.indexOf "{" (String c rest) >= 0)
             then Z.of_nat (String.length noise)
                  + JSString.indexOf "{" (String c rest)
             else -1)
            (if decide (JSString.indexOf "[" (String c rest) >= 0)
             then Z.of_nat (String.length noise)
                  + JSString.indexOf "[" (String c rest)
             else -1)
     else if decide ((if decide (JSString.indexOf "{" (String c rest) >= 0)
                      then Z.of_nat (String.length noise)
                           + JSString.indexOf "{" (String c rest)
                      else -1) >= 0)
          then (if decide (JSString.indexOf "{" (String c rest) >= 0)
                then Z.of_nat (String.length noise)
                     + JSString.indexOf "{" (String c rest)
                else -1)
          else (if decide (JSString.indexOf "[" (String c rest) >= 0)
                then Z.of_nat (String.length noise)
                     + JSString.indexOf "[" (String c rest)
                else -1))
    = Z.of_nat (String.length noise)).
  { pose proof (indexOf_range "{" rest) as Hbrace.
    pose proof (indexOf_range "[" rest) as Hbracket.
    destruct Hc as [->| ->]; simpl; repeat case_decide; try done; lia. }
  rewrite Hstart. rewrite decide_True by lia.
  rewrite Nat2Z.id, drop_app_length, Hok. done.
Qed.

(** ** The further properties on the concrete platform *)

Lemma agenda_uncapped_below_thirteen_jobs_witness :
  let a := Utc.agenda [Utc.cronJob "sync" "0 */3 * * *";
                       Utc.cronJob "nightly" "0 0 * * *"] Utc.nowMs in
  agenda_wasGlobalCapped a = false ∧ agenda_shown a = agenda_total a.
Proof.
  destruct (agenda_uncapped_below_thirteen_jobs Utc.newCron Utc.dateKey
              Utc.localeCompare Utc.formatDayHeading
              [Utc.cronJob "sync" "0 */3 * * *"; Utc.cronJob "nightly" "0 0 * * *"]
              Utc.nowMs) as (Hflag & Hshown & _).
  - simpl. lia.
  - split; assumption.
Defined.

Lemma agenda_items_in_lookahead_witness :
  Forall (λ g,
            Forall (λ it, Utc.nowMs <= runAtMs it
                          <= Utc.nowMs + AGENDA_LOOKAHEAD_DAYS * DAY_MS)
                   (group_items g))
    (agenda_groups (Utc.agenda [Utc.cronJob "nightly" "0 0 * * *"] Utc.nowMs)).
Proof.
  apply (agenda_items_in_lookahead Utc.newCron Utc.dateKey Utc.localeCompare
           Utc.formatDayHeading).
  exact utc_newCron_contract.
Defined.

Lemma startOfWeekMs_is_week_start_witness :
  let weekStartMs :=
    startOfWeekMs Utc.setHoursMidnight Utc.getDay Utc.addDate Utc.nowMs WEEK_STARTS_ON in
  Utc.getDay weekStartMs = WEEK_STARTS_ON
  ∧ weekStartMs <= Utc.nowMs < weekStartMs + 7 * DAY_MS.
Proof.
  destruct (startOfWeekMs_is_week_start Utc.setHoursMidnight Utc.getDay Utc.addDate
              Utc.nowMs WEEK_STARTS_ON) as (Hday & Hwindow & _).
  - exact utc_fixed_offset_dates.
  - vm_compute. split; discriminate.
  - split; assumption.
Defined.

Lemma filteredJobs_blank_query_witness :
  filteredJobs Plain.trim Plain.toLowerCase Plain.includes
    [Utc.cronJob "sync" "0 */3 * * *"; Plain.disabledJob "legacy" "0 0 * * *"]
    "   " false
  = [Utc.cronJob "sync" "0 */3 * * *"; Plain.disabledJob "legacy" "0 0 * * *"].
Proof.
  apply (filteredJobs_blank_query Plain.trim Plain.toLowerCase Plain.includes).
  reflexivity.
Defined.

Lemma parseJsonOrFail_skips_leading_noise_witness :
  parseJsonOrFail Plain.JSON_parse Plain.trim id
    "openclaw cron list --all --json" ("Config warning: legacy key. " +:+ "[]")
  = Returned [].
Proof.
  apply (parseJsonOrFail_skips_leading_noise Plain.JSON_parse Plain.trim
           id "openclaw cron list --all --json"
           "Config warning: legacy key. " "[" "]" "Unexpected token" []).
  - discriminate.
  - simpl. repeat constructor; discriminate.
  - by right.
  - vm_compute. reflexivity.
  - vm_compute. reflexivity.
  - vm_compute. reflexivity.
Defined.

(** The filter on a list of three jobs: the query matches names and
    agents whatever their case, and "Enabled only" drops the disabled
    job. *)
Example filteredJobs_by_query_and_enabled :
  let jobs := [Utc.cronJob "Sync" "0 */3 * * *";
               Plain.disabledJob "legacy sync" "0 0 * * *";
               Utc.cronJob "nightly" "0 0 * * *"] in
  filteredJobs Plain.trim Plain.toLowerCase Plain.includes jobs " SYNC " false
    = [Utc.cronJob "Sync" "0 */3 * * *"; Plain.disabledJob "legacy sync" "0 0 * * *"]
  ∧ filteredJobs Plain.trim Plain.toLowerCase Plain.includes jobs " SYNC " true
    = [Utc.cronJob "Sync" "0 */3 * * *"]
  ∧ filteredJobs Plain.trim Plain.toLowerCase Plain.includes jobs "ops" false
    = [Plain.disabledJob "legacy sync" "0 0 * * *"].
Proof. vm_compute. done. Qed.

(** The escaped form of a text with markup, and a clipped and a padded
    table cell. *)
Example escapeHtml_and_clipAndPad_samples :
  escapeHtml (Some "a<b & 'c'") = "a&lt;b &amp; &#39;c&#39;"
  ∧ escapeHtml None = ""
  ∧ clipAndPad (Some "nightly-backup") 10 = "nightly..."
  ∧ clipAndPad (Some "sync") 6 = "sync  "
  ∧ clipAndPad (Some "sync") 3 = "syn"
  ∧ clipAndPad None 3 = "-  ".
Proof. vm_compute. done. Qed.
